(** * vue-concurrency: the policy helpers and derived views of [src/utils.ts]

    A shallow embedding of the helpers the task engine is built from
    ([reachedMaxConcurrency], [cancelFirstRunning], [dropEnqueued]), of the
    derived views ([filteredInstances], [computedFilterBy], [computedLength],
    [computedLastOf], [computedFirstOf]), of [defer] and of [getCancelToken].

    Task instances are JavaScript objects that several arrays point to at
    once: the task's [_instances] array and every filtered view hold
    references to the same objects, and the helpers mutate the objects
    through a view.  The embedding therefore keeps the objects in a store
    indexed by references and lets arrays hold references. *)

From stdpp Require Import gmap list strings.
From Stdlib Require Import ZArith.

Local Open Scope Z_scope.

(* ===================================================================== *)
(** * The platform: array indexing and numbers                           *)
(* ===================================================================== *)

(** [a[i]] on a JavaScript array: [undefined] ([None]) for a negative index
    or an index beyond the last element. *)
Definition js_index {A : Type} (a : list A) (i : Z) : option A :=
  if i <? 0 then None else a !! Z.to_nat i.

(** [a.length] as a number. *)
Definition js_length {A : Type} (a : list A) : Z := Z.of_nat (length a).

(** The numbers a concurrency ceiling takes: an integer, or [Infinity] for a
    task without a ceiling. *)
Inductive number : Type :=
  | Int (z : Z)
  | Infinity.

(** [n >= m] for an integer [n] and a number [m]. *)
Definition js_geq (n : Z) (m : number) : bool :=
  match m with
  | Int z => z <=? n
  | Infinity => false
  end.

(** The mathematical order the comparison decides. *)
Definition number_le (m : number) (n : Z) : Prop :=
  match m with
  | Int z => z <= n
  | Infinity => False
  end.

(* ===================================================================== *)
(** * Task instances and tasks                                           *)
(* ===================================================================== *)

(** References to instance objects and to promises. *)
Definition loc := nat.
Definition ploc := nat.

(** The JavaScript values that instances and promises carry: [undefined],
    numbers, strings, promises (by reference) and error objects (by the name
    of their class).  Objects with a [then] method of their own are not
    among them: the only thenables here are promises. *)
Inductive JsValue : Type :=
  | VUndefined
  | VNumber (z : Z)
  | VString (s : string)
  | VPromise (p : ploc)
  | VError (name : string).

(** [a === b] on these values; promises are compared by reference, error
    objects are told apart by name only. *)
Definition strict_eq (a b : JsValue) : bool :=
  match a, b with
  | VUndefined, VUndefined => true
  | VNumber x, VNumber y => x =? y
  | VString x, VString y => String.eqb x y
  | VPromise p, VPromise q => Nat.eqb p q
  | VError x, VError y => String.eqb x y
  | _, _ => false
  end.

(** The fields of a [TaskInstance] that [utils.ts] reads or writes: the six
    status booleans (assigned in [dropEnqueued], read in [printTask]),
    [value] and [error].  [signalIsCanceled] stands for [signal.isCanceled],
    the flag of the abort signal that the data model of the specification
    gives every instance. *)
Record TaskInstance : Type := mkTaskInstance {
  isEnqueued : bool;
  isRunning : bool;
  isSuccessful : bool;
  isError : bool;
  isCanceled : bool;
  isDropped : bool;
  value : JsValue;
  error : JsValue;
  signalIsCanceled : bool
}.

(** The object store: what each reference points to right now. *)
Abbreviation Heap := (gmap loc TaskInstance).

(** [BooleanKeys<TaskInstance>]: the names of the boolean fields. *)
Inductive BooleanKeys : Type :=
  | KisEnqueued
  | KisRunning
  | KisSuccessful
  | KisError
  | KisCanceled
  | KisDropped.

(** [item[key]] on an instance object. *)
Definition get_field (key : BooleanKeys) (i : TaskInstance) : bool :=
  match key with
  | KisEnqueued => isEnqueued i
  | KisRunning => isRunning i
  | KisSuccessful => isSuccessful i
  | KisError => isError i
  | KisCanceled => isCanceled i
  | KisDropped => isDropped i
  end.

(** [instance.isEnqueued = b] and [instance.isDropped = b]. *)
Definition set_isEnqueued (b : bool) (i : TaskInstance) : TaskInstance :=
  mkTaskInstance b (isRunning i) (isSuccessful i) (isError i) (isCanceled i)
    (isDropped i) (value i) (error i) (signalIsCanceled i).

Definition set_isDropped (b : bool) (i : TaskInstance) : TaskInstance :=
  mkTaskInstance (isEnqueued i) (isRunning i) (isSuccessful i) (isError i)
    (isCanceled i) b (value i) (error i) (signalIsCanceled i).

(** The stored fields of a [Task] that [utils.ts] reads: the array of
    instance references, the ceiling and the four policy flags. *)
Record Task : Type := mkTask {
  _instances : list loc;
  _maxConcurrency : number;
  _isDropping : bool;
  _isEnqueuing : bool;
  _isRestartable : bool;
  _isKeepingLatest : bool
}.

(** The reactive state a computed value is recomputed from: the task's
    stored fields and the instance objects. *)
Record World : Type := mkWorld {
  task : Task;
  objs : Heap
}.

(** [computed(() => e)]: a value recomputed from the current state whenever
    it is read. *)
Definition computed (A : Type) : Type := World -> A.

(** Reading a boolean field through a reference. *)
Definition read_field (key : BooleanKeys) (h : Heap) (l : loc) : bool :=
  match h !! l with
  | Some i => get_field key i
  | None => false
  end.

(* ===================================================================== *)
(** * Derived views ([utils.ts], lines 38-81)                            *)
(* ===================================================================== *)

(** The callback of [collection.filter] in [computedFilterBy]:
    [curr === value] when a truthy [value] is given, [curr] otherwise. *)
Definition filter_callback (curr : bool) (value : option bool) : bool :=
  match value with
  | Some true => Bool.eqb curr true
  | _ => curr
  end.

(** [computedFilterBy(cb, key, value)] for a collection of references whose
    field [key] is read by [read].  The source types [value] as [any]; the
    fields read here are booleans, so [value] is an optional boolean, [None]
    when the argument is left out, as in [filteredInstances]. *)
Definition computedFilterBy {T : Type} (cb : World -> list T)
    (read : World -> T -> bool) (value : option bool) : computed (list T) :=
  fun w =>
    let collection := cb w in
    List.filter (fun item => filter_callback (read w item) value) collection.

(** [filteredInstances(cb, key)]; [key = None] is the call without a key. *)
Definition filteredInstances (cb : World -> Task) (key : option BooleanKeys)
    : computed (list loc) :=
  match key with
  | None => fun _ => []
  | Some k =>
      computedFilterBy (fun w => _instances (cb w))
        (fun w item => read_field k (objs w) item) None
  end.

Definition computedLength {A : Type} (cb : World -> list A) : computed Z :=
  fun w => js_length (cb w).

Definition computedLastOf {A : Type} (cb : World -> list A)
    : computed (option A) :=
  fun w =>
    let collection := cb w in
    js_index collection (js_length collection - 1).

Definition computedFirstOf {A : Type} (cb : World -> list A)
    : computed (option A) :=
  fun w =>
    let collection := cb w in
    js_index collection 0.

(* ===================================================================== *)
(** * The task's derived instance sequences                              *)
(* ===================================================================== *)

(** Modelled from the spec: [_runningInstances] is a property of [Task],
    declared in [Task.ts], which is not under [src/].  The data model gives
    it as the subsequence of [instances] filtered by instance state, computed
    and not stored: the view [filteredInstances] builds for the field
    [isRunning]. *)
Definition _runningInstances : computed (list loc) :=
  filteredInstances task (Some KisRunning).

(** Modelled from the spec: [_enqueuedInstances], as [_runningInstances]
    above, for the field [isEnqueued]. *)
Definition _enqueuedInstances : computed (list loc) :=
  filteredInstances task (Some KisEnqueued).

(** Modelled from the spec: [_activeInstances] (declared in [Task.ts]) is
    the subsequence of [instances] that are running or enqueued. *)
Definition _activeInstances : computed (list loc) :=
  computedFilterBy (fun w => _instances (task w))
    (fun w item =>
       read_field KisRunning (objs w) item
       || read_field KisEnqueued (objs w) item)
    None.

(* ===================================================================== *)
(** * Instance status and cancellation                                   *)
(* ===================================================================== *)

Module Status.
Inductive t : Type :=
  | pending
  | running
  | enqueued
  | successful
  | error
  | canceled
  | dropped.
End Status.

(** Modelled from the spec: [status] is a property of [TaskInstance],
    declared in [TaskInstance.ts], which is not under [src/].  The data model
    keeps [status] and the six booleans consistent by construction; the
    source assigns the booleans ([dropEnqueued]) and never [status], so the
    booleans are the stored fields and [status] is read off them, [pending]
    when none is set. *)
Definition status (i : TaskInstance) : Status.t :=
  if isRunning i then Status.running
  else if isEnqueued i then Status.enqueued
  else if isSuccessful i then Status.successful
  else if isError i then Status.error
  else if isCanceled i then Status.canceled
  else if isDropped i then Status.dropped
  else Status.pending.

(** The status value each boolean stands for. *)
Definition status_of_key (key : BooleanKeys) : Status.t :=
  match key with
  | KisEnqueued => Status.enqueued
  | KisRunning => Status.running
  | KisSuccessful => Status.successful
  | KisError => Status.error
  | KisCanceled => Status.canceled
  | KisDropped => Status.dropped
  end.


(** Every boolean is true exactly when [status] has its value. *)
Definition consistent (i : TaskInstance) : Prop :=
  forall key, get_field key i = true <-> status i = status_of_key key.

(** How many of the six booleans are set. *)
Definition flags_set (i : TaskInstance) : nat :=
  (Nat.b2n (isEnqueued i) + Nat.b2n (isRunning i) + Nat.b2n (isSuccessful i)
   + Nat.b2n (isError i) + Nat.b2n (isCanceled i) + Nat.b2n (isDropped i))%nat.

(** Modelled from the spec: [cancel()] is a method of [TaskInstance]
    ([TaskInstance.ts], not under [src/]).  It moves a running or enqueued
    instance to [canceled] and sets the [isCanceled] flag of the abort
    signal the instance owns; on any other instance it does nothing. *)
Definition cancel (i : TaskInstance) : TaskInstance :=
  if isRunning i || isEnqueued i then
    mkTaskInstance false false (isSuccessful i) (isError i) true
      (isDropped i) (value i) (error i) true
  else i.

(* ===================================================================== *)
(** * Policy helpers ([utils.ts], lines 17-32)                           *)
(* ===================================================================== *)

(** Mutating the object behind a reference: every array that holds the
    reference sees the change. *)
Definition assign (l : loc) (f : TaskInstance -> TaskInstance) (w : World)
    : World :=
  mkWorld (task w) (alter f l (objs w)).

Definition reachedMaxConcurrency (w : World) : bool :=
  js_geq (js_length (_runningInstances w)) (_maxConcurrency (task w)).

Definition cancelFirstRunning (w : World) : World :=
  let firstRunningInstance := js_index (_activeInstances w) 0 in
  match firstRunningInstance with
  | Some instance => assign instance cancel w
  | None => w
  end.

(** [forEach] walks the array that [_enqueuedInstances] held when the call
    started; the two assignments go to the object behind each reference. *)
Definition dropEnqueued (w : World) : World :=
  foldl
    (fun w' instance =>
       assign instance (set_isDropped true)
         (assign instance (set_isEnqueued false) w'))
    w (_enqueuedInstances w).

(* ===================================================================== *)
(** * The admission engine                                               *)
(* ===================================================================== *)

(** Modelled from the spec: a fresh instance is [pending]: no boolean is
    set, no value, no error, its signal not cancelled ([TaskInstance.ts] is
    not under [src/]). *)
Definition new_instance : TaskInstance :=
  mkTaskInstance false false false false false false VUndefined VUndefined
    false.

(** Modelled from the spec: the lifecycle transitions of an instance
    (section 4.2; [TaskInstance.ts] is not under [src/]).  An instance that
    is admitted or promoted becomes [running]. *)
Definition mark_running (i : TaskInstance) : TaskInstance :=
  mkTaskInstance false true (isSuccessful i) (isError i) (isCanceled i)
    (isDropped i) (value i) (error i) (signalIsCanceled i).

(** Modelled from the spec: an instance that has to wait becomes
    [enqueued]. *)
Definition mark_enqueued (i : TaskInstance) : TaskInstance :=
  set_isEnqueued true i.

(** Modelled from the spec: an instance that is refused becomes [dropped];
    these are the two assignments [dropEnqueued] makes. *)
Definition mark_dropped (i : TaskInstance) : TaskInstance :=
  set_isDropped true (set_isEnqueued false i).

(** Modelled from the spec: a running instance that returns becomes
    [successful] and gets its [value]. *)
Definition mark_successful (v : JsValue) (i : TaskInstance) : TaskInstance :=
  mkTaskInstance (isEnqueued i) false true (isError i) (isCanceled i)
    (isDropped i) v (error i) (signalIsCanceled i).

(** Modelled from the spec: a running instance that throws becomes
    [error] and gets its [error]. *)
Definition mark_error (e : JsValue) (i : TaskInstance) : TaskInstance :=
  mkTaskInstance (isEnqueued i) false (isSuccessful i) true (isCanceled i)
    (isDropped i) (value i) e (signalIsCanceled i).

(** Modelled from the spec: [perform] creates the instance and appends it
    to [_instances], whose order is the order of invocation. *)
Definition push_instance (l : loc) (w : World) : World :=
  let t := task w in
  mkWorld
    (mkTask (_instances t ++ [l]) (_maxConcurrency t) (_isDropping t)
       (_isEnqueuing t) (_isRestartable t) (_isKeepingLatest t))
    (<[l := new_instance]> (objs w)).

(** Modelled from the spec: the admission rule of [perform] (section 4.1;
    [Task.ts] is not under [src/]), built on the three helpers of
    [utils.ts].  Below the ceiling the new instance runs.  At the ceiling:
    Drop marks it dropped; Enqueue marks it enqueued; Restartable cancels the
    first active instance and runs it; KeepLatest drops the backlog and
    enqueues it; a task without a policy runs it. *)
Definition admission (l : loc) (w : World) : World :=
  let t := task w in
  if reachedMaxConcurrency w then
    if _isDropping t then assign l mark_dropped w
    else if _isEnqueuing t then assign l mark_enqueued w
    else if _isRestartable t then assign l mark_running (cancelFirstRunning w)
    else if _isKeepingLatest t then assign l mark_enqueued (dropEnqueued w)
    else assign l mark_running w
  else assign l mark_running w.

(** Modelled from the spec: [perform] ([Task.ts], not under [src/]): the
    new instance is created and its admission decided in one step. *)
Definition perform (l : loc) (w : World) : World :=
  admission l (push_instance l w).

(** Modelled from the spec: what can happen to a task (sections 4.1, 4.2
    and 5): a [perform] with a new instance object; a running instance
    finishing with a value or an error; an instance being cancelled; the
    oldest enqueued instance being promoted once a running slot is free. *)
Inductive step : World -> World -> Prop :=
  | step_perform w l :
      objs w !! l = None ->
      step w (perform l w)
  | step_success w l v :
      l ∈ _instances (task w) ->
      read_field KisRunning (objs w) l = true ->
      step w (assign l (mark_successful v) w)
  | step_error w l e :
      l ∈ _instances (task w) ->
      read_field KisRunning (objs w) l = true ->
      step w (assign l (mark_error e) w)
  | step_cancel w l :
      l ∈ _instances (task w) ->
      step w (assign l cancel w)
  | step_promote w l :
      reachedMaxConcurrency w = false ->
      js_index (_enqueuedInstances w) 0 = Some l ->
      step w (assign l mark_running w).

(** Modelled from the spec: a task as it is defined, before any [perform]:
    no instances. *)
Definition new_task (m : number) (dropping enqueuing restartable keeping : bool)
    : World :=
  mkWorld (mkTask [] m dropping enqueuing restartable keeping) ∅.

(** How many of the four policy flags are set. *)
Definition policy_flags (t : Task) : nat :=
  (Nat.b2n (_isDropping t) + Nat.b2n (_isEnqueuing t)
   + Nat.b2n (_isRestartable t) + Nat.b2n (_isKeepingLatest t))%nat.

(** Modelled from the spec: the configuration of a task (section 3): at
    most one policy flag; a ceiling of at least 1; no ceiling ([Infinity])
    for a task without a policy. *)
Definition well_configured (t : Task) : Prop :=
  (policy_flags t <= 1)%nat
  /\ (forall z, _maxConcurrency t = Int z -> 1 <= z)
  /\ (policy_flags t = 0%nat -> _maxConcurrency t = Infinity).

(** The worlds a task reaches from its definition. *)
Definition reachable (w0 w : World) : Prop := rtc step w0 w.

(** The ceiling: the running instances are no more than [maxConcurrency]. *)
Definition within_ceiling (w : World) : Prop :=
  match _maxConcurrency (task w) with
  | Int z => js_length (_runningInstances w) <= z
  | Infinity => True
  end.

(** Two tasks with the same ceiling and the same policy flags. *)
Definition same_config (t t' : Task) : Prop :=
  _maxConcurrency t' = _maxConcurrency t
  /\ _isDropping t' = _isDropping t
  /\ _isEnqueuing t' = _isEnqueuing t
  /\ _isRestartable t' = _isRestartable t
  /\ _isKeepingLatest t' = _isKeepingLatest t.

(** The shape of every world a task reaches: the instance array holds each
    reference once and only references to objects, and no object has more
    than one of its six booleans set. *)
Record shape_inv (w : World) : Prop := mk_shape_inv {
  shape_nodup : NoDup (_instances (task w));
  shape_alloc : forall l, l ∈ _instances (task w) -> is_Some (objs w !! l);
  shape_flags : forall l i, objs w !! l = Some i -> (flags_set i <= 1)%nat
}.

(** What every world of a well-configured task satisfies besides: the
    running instances are within the ceiling, and a task that neither
    enqueues nor keeps the latest has nothing enqueued. *)
Record engine_inv (w : World) : Prop := mk_engine_inv {
  inv_shape : shape_inv w;
  inv_ceiling : within_ceiling w;
  inv_backlog :
    _isEnqueuing (task w) = false -> _isKeepingLatest (task w) = false ->
    _enqueuedInstances w = []
}.

(* ===================================================================== *)
(** * The platform: promises and the job queue                           *)
(* ===================================================================== *)

(** References to abort signals and cancel tokens. *)
Definition sloc := nat.
Definition tloc := nat.

Inductive PromiseState : Type :=
  | Pending
  | Fulfilled (v : JsValue)
  | Rejected (reason : JsValue).

(** The closures that wait on promises, by what they capture.
    [CancelIfMarker c] is the handler of [getCancelToken],
    [(reason) => { if (reason === "cancel") cancel(); }], with [c] the token
    whose [cancel] function it captured.  The other three belong to the
    platform: [ResolveThenable p] is the job that makes [p] follow the
    promise it was resolved with, by calling that promise's [then] with the
    two resolving functions [AdoptFulfil p] and [AdoptReject p]. *)
Inductive Handler : Type :=
  | CancelIfMarker (c : tloc)
  | ResolveThenable (p : ploc)
  | AdoptFulfil (p : ploc)
  | AdoptReject (p : ploc).

(** A promise: its state, the handlers waiting for its fulfilment and for
    its rejection, and whether one of the two resolving functions handed out
    by [new Promise] has been called already. *)
Record PromiseCell : Type := mkPromiseCell {
  pstate : PromiseState;
  onFulfilled : list Handler;
  onRejected : list Handler;
  alreadyResolved : bool
}.

Module AbortSignal.
(** [AbortSignalWithPromise] (declared in [Task.ts], not under [src/]):
    [utils.ts] reads its field [pr], the signal's promise; the flag
    [isCanceled] is modelled from the spec, whose data model gives it to
    every abort signal. *)
Record t : Type := mk {
  isCanceled : bool;
  pr : ploc
}.
End AbortSignal.

(** The state of the JavaScript runtime: the promises, the abort signals,
    for every cancel token the number of times its [cancel] function has
    been invoked, and the queue of handler jobs waiting to run. *)
Record Runtime : Type := mkRuntime {
  promises : gmap ploc PromiseCell;
  signals : gmap sloc AbortSignal.t;
  tokens : gmap tloc nat;
  jobs : list (Handler * JsValue)
}.

Definition empty_runtime : Runtime := mkRuntime ∅ ∅ ∅ [].

Definition set_promises (ps : gmap ploc PromiseCell) (rt : Runtime) : Runtime :=
  mkRuntime ps (signals rt) (tokens rt) (jobs rt).

Definition set_signals (ss : gmap sloc AbortSignal.t) (rt : Runtime) : Runtime :=
  mkRuntime (promises rt) ss (tokens rt) (jobs rt).

Definition set_tokens (ts : gmap tloc nat) (rt : Runtime) : Runtime :=
  mkRuntime (promises rt) (signals rt) ts (jobs rt).

Definition set_jobs (js : list (Handler * JsValue)) (rt : Runtime) : Runtime :=
  mkRuntime (promises rt) (signals rt) (tokens rt) js.

(** Storing a promise cell, and queueing jobs behind those that wait. *)
Definition set_cell (p : ploc) (cell : PromiseCell) (rt : Runtime) : Runtime :=
  set_promises (<[p := cell]> (promises rt)) rt.

Definition enqueue (js : list (Handler * JsValue)) (rt : Runtime) : Runtime :=
  set_jobs (jobs rt ++ js) rt.

Definition promise_state (p : ploc) (rt : Runtime) : option PromiseState :=
  pstate <$> promises rt !! p.

(** The jobs a settlement queues: a fulfilment queues every handler that
    waits for the fulfilment with the value, a rejection every handler that
    waits for the rejection with the reason. *)
Definition reactions_of (s : PromiseState) (cell : PromiseCell)
    : list (Handler * JsValue) :=
  match s with
  | Pending => []
  | Fulfilled v => (fun h => (h, v)) <$> onFulfilled cell
  | Rejected reason => (fun h => (h, reason)) <$> onRejected cell
  end.

(** Fulfilling or rejecting a promise: a pending promise takes the state
    and its reactions are queued; a settled promise stays as it is. *)
Definition settle (p : ploc) (s : PromiseState) (rt : Runtime) : Runtime :=
  match promises rt !! p with
  | Some cell =>
      match pstate cell with
      | Pending =>
          enqueue (reactions_of s cell)
            (set_cell p (mkPromiseCell s [] [] (alreadyResolved cell)) rt)
      | _ => rt
      end
  | None => rt
  end.

(** The reason a promise that is resolved with itself is rejected with. *)
Definition self_resolution_error : JsValue := VError "TypeError".

(** Resolving a promise with a value.  A value that is not a promise
    fulfils it.  A promise as value does not: the promise stays pending and
    a job is queued that will make it follow that promise; resolved with
    itself, it is rejected. *)
Definition resolve_promise (p : ploc) (v : JsValue) (rt : Runtime) : Runtime :=
  match v with
  | VPromise q =>
      if Nat.eqb q p then settle p (Rejected self_resolution_error) rt
      else enqueue [(ResolveThenable p, v)] rt
  | _ => settle p (Fulfilled v) rt
  end.

(** The cell of a promise once one of its resolving functions has been
    called. *)
Definition lock (cell : PromiseCell) : PromiseCell :=
  mkPromiseCell (pstate cell) (onFulfilled cell) (onRejected cell) true.

(** The two resolving functions [new Promise] hands to its executor.  They
    share one flag: the first call of either sets it and takes effect, every
    later call of either returns without doing anything. *)
Definition promise_resolve (p : ploc) (v : JsValue) (rt : Runtime) : Runtime :=
  match promises rt !! p with
  | Some cell =>
      if alreadyResolved cell then rt
      else resolve_promise p v (set_cell p (lock cell) rt)
  | None => rt
  end.

Definition promise_reject (p : ploc) (reason : JsValue) (rt : Runtime)
    : Runtime :=
  match promises rt !! p with
  | Some cell =>
      if alreadyResolved cell then rt
      else settle p (Rejected reason) (set_cell p (lock cell) rt)
  | None => rt
  end.

(** [q.then(hf, hr)]: both handlers wait on a pending promise; on a settled
    one the handler for its state is queued at once. *)
Definition promise_then (q : ploc) (hf hr : Handler) (rt : Runtime) : Runtime :=
  match promises rt !! q with
  | Some cell =>
      match pstate cell with
      | Pending =>
          set_cell q
            (mkPromiseCell Pending (onFulfilled cell ++ [hf])
               (onRejected cell ++ [hr]) (alreadyResolved cell))
            rt
      | Fulfilled v => enqueue [(hf, v)] rt
      | Rejected reason => enqueue [(hr, reason)] rt
      end
  | None => rt
  end.

(** [p.catch(h)]: [h] waits on a pending promise, is queued at once on a
    rejected one, and never runs on a fulfilled one. *)
Definition promise_catch (p : ploc) (h : Handler) (rt : Runtime) : Runtime :=
  match promises rt !! p with
  | Some cell =>
      match pstate cell with
      | Pending =>
          set_cell p
            (mkPromiseCell Pending (onFulfilled cell) (onRejected cell ++ [h])
               (alreadyResolved cell))
            rt
      | Rejected reason => enqueue [(h, reason)] rt
      | Fulfilled _ => rt
      end
  | None => rt
  end.

(** [new Promise(executor)]: a new pending promise; [executor] runs at once
    with the promise's two resolving functions. *)
Definition new_Promise {A : Type}
    (executor : (JsValue -> Runtime -> Runtime) ->
                (JsValue -> Runtime -> Runtime) -> Runtime -> A * Runtime)
    (rt : Runtime) : (ploc * A) * Runtime :=
  let p := fresh (dom (promises rt)) in
  let rt1 := set_cell p (mkPromiseCell Pending [] [] false) rt in
  let '(a, rt2) := executor (promise_resolve p) (promise_reject p) rt1 in
  ((p, a), rt2).

(* ===================================================================== *)
(** * [defer] ([utils.ts], lines 96-110)                                 *)
(* ===================================================================== *)

Record DeferredObject : Type := mkDeferredObject {
  promise : ploc;
  resolve : JsValue -> Runtime -> Runtime;
  reject : JsValue -> Runtime -> Runtime
}.

(** The executor stores the two resolving functions; [defer] returns them
    next to the promise. *)
Definition defer (rt : Runtime) : DeferredObject * Runtime :=
  let '((p, (res, rej)), rt') :=
    new_Promise (fun resolve reject rt1 => ((resolve, reject), rt1)) rt in
  (mkDeferredObject p res rej, rt').

(** A call of one of the two functions of a deferred object. *)
Inductive Call : Type :=
  | CallResolve (v : JsValue)
  | CallReject (reason : JsValue).






(* ===================================================================== *)
(** * [getCancelToken] ([utils.ts], lines 164-175)                       *)
(* ===================================================================== *)

(** The marker an abort signal rejects its promise with, as
    [getCancelToken] tests for it. *)
Definition cancel_marker : JsValue := VString "cancel".

(** Calling the [cancel] function of token [c]. *)
Definition invoke_cancel (c : tloc) (rt : Runtime) : Runtime :=
  set_tokens (alter S c (tokens rt)) rt.

(** Running a handler with the value or reason its promise was settled
    with.  The handler of [getCancelToken] tests the reason and calls
    [cancel]; the platform's job calls [then] on the promise to follow; the
    two functions it passes resolve and reject the following promise. *)
Definition run_handler (h : Handler) (reason : JsValue) (rt : Runtime)
    : Runtime :=
  match h with
  | CancelIfMarker c =>
      if strict_eq reason cancel_marker then invoke_cancel c rt else rt
  | ResolveThenable p =>
      match reason with
      | VPromise q => promise_then q (AdoptFulfil p) (AdoptReject p) rt
      | _ => rt
      end
  | AdoptFulfil p => resolve_promise p reason rt
  | AdoptReject p => settle p (Rejected reason) rt
  end.

(** The client library, as far as [getCancelToken] uses it: the
    constructor [CancelToken], given an executor. *)
Record Axios : Type := mkAxios {
  CancelToken : (tloc -> Runtime -> Runtime) -> Runtime -> tloc * Runtime
}.

(** The client's [CancelToken] constructor, a third-party interface: a new
    token whose [cancel] function has not been invoked; the executor runs at
    once and receives that function (here: the token it belongs to). *)
Definition axios : Axios :=
  mkAxios (fun executor rt =>
    let c := fresh (dom (tokens rt)) in
    (c, executor c (set_tokens (<[c := 0%nat]> (tokens rt)) rt))).

(** [signal.pr]. *)
Definition signal_pr (signal : sloc) (rt : Runtime) : option ploc :=
  AbortSignal.pr <$> signals rt !! signal.

Definition getCancelToken (ax : Axios) (signal : sloc) (rt : Runtime)
    : tloc * Runtime :=
  CancelToken ax
    (fun cancel rt' =>
       match signal_pr signal rt' with
       | Some p => promise_catch p (CancelIfMarker cancel) rt'
       | None => rt'
       end)
    rt.

(** Modelled from the spec: an abort signal is created not cancelled, with
    a pending promise of its own ([Task.ts] is not under [src/]). *)
Definition new_signal (rt : Runtime) : sloc * Runtime :=
  let p := fresh (dom (promises rt)) in
  let s := fresh (dom (signals rt)) in
  (s, set_signals (<[s := AbortSignal.mk false p]> (signals rt))
        (set_cell p (mkPromiseCell Pending [] [] false) rt)).

(** Modelled from the spec: [cancel()] on an abort signal sets [isCanceled]
    and calls the reject function of the signal's promise with the
    cancellation marker, once; a second call does nothing.  The promise is
    rejected: the rejection is what [getCancelToken] listens for. *)
Definition signal_cancel (s : sloc) (rt : Runtime) : Runtime :=
  match signals rt !! s with
  | Some sg =>
      if AbortSignal.isCanceled sg then rt
      else
        promise_reject (AbortSignal.pr sg) cancel_marker
          (set_signals
             (<[s := AbortSignal.mk true (AbortSignal.pr sg)]> (signals rt)) rt)
  | None => rt
  end.

(** Whether signal [s] has been cancelled. *)
Definition signal_canceled (s : sloc) (rt : Runtime) : bool :=
  match signals rt !! s with
  | Some sg => AbortSignal.isCanceled sg
  | None => false
  end.

(** How often the [cancel] function of token [c] has been invoked. *)
Definition cancel_calls (c : tloc) (rt : Runtime) : nat :=
  default 0%nat (tokens rt !! c).

(** Running the jobs that are in the queue, oldest first; the jobs they
    queue in turn stay in the queue. *)
Definition run_jobs (rt : Runtime) : Runtime :=
  foldl (fun rt' job => run_handler job.1 job.2 rt') (set_jobs [] rt) (jobs rt).

(** A call of a resolving function of promise [p] by whoever holds it. *)
Definition promise_call (p : ploc) (c : Call) (rt : Runtime) : Runtime :=
  match c with
  | CallResolve v => promise_resolve p v rt
  | CallReject reason => promise_reject p reason rt
  end.

(** What the runtime does, one event at a time: a signal is created, a
    signal is cancelled, a token is requested for a signal, the oldest job
    of the queue runs, a deferred object is created, a resolving function of
    some promise is called with some value.  The last event covers every way
    a promise can be settled: with the marker, with another reason, with a
    value, with another promise. *)
Inductive rt_step : Runtime -> Runtime -> Prop :=
  | rt_new_signal rt :
      rt_step rt (new_signal rt).2
  | rt_cancel rt s :
      rt_step rt (signal_cancel s rt)
  | rt_token rt s :
      is_Some (signals rt !! s) ->
      rt_step rt (getCancelToken axios s rt).2
  | rt_job rt h reason js :
      jobs rt = (h, reason) :: js ->
      rt_step rt (run_handler h reason (set_jobs js rt))
  | rt_defer rt :
      rt_step rt (defer rt).2
  | rt_call rt p c :
      rt_step rt (promise_call p c rt).

(** The runs of the runtime. *)
Definition rt_reachable (rt0 rt : Runtime) : Prop := rtc rt_step rt0 rt.

(** Whether handler [h] would call the [cancel] function of token [c]. *)
Definition handles (c : tloc) (h : Handler) : bool :=
  match h with
  | CancelIfMarker c' => bool_decide (c' = c)
  | _ => false
  end.

(** Whether handler [h] would settle promise [p]. *)
Definition targets (p : ploc) (h : Handler) : bool :=
  match h with
  | CancelIfMarker _ => false
  | ResolveThenable p' | AdoptFulfil p' | AdoptReject p' =>
      bool_decide (p' = p)
  end.

(** How many handlers of a kind are in a list of handlers, and how many
    jobs of that kind are in a queue.  The kinds used are the handlers of a
    token, [handles c], and the handlers that settle a promise,
    [targets p]. *)
Definition waiting (P : Handler -> bool) (hs : list Handler) : nat :=
  length (List.filter P hs).

Definition queued (P : Handler -> bool) (js : list (Handler * JsValue)) : nat :=
  length (List.filter (fun j => P j.1) js).

(** How many jobs of a queue will invoke the [cancel] function of token
    [c] when they run: its jobs that carry the marker. *)
Definition cancelling (c : tloc) (js : list (Handler * JsValue)) : nat :=
  length
    (List.filter (fun j => handles c j.1 && strict_eq j.2 cancel_marker) js).

(** No handler of the kind waits on the promise. *)
Definition clean (P : Handler -> bool) (cell : PromiseCell) : Prop :=
  waiting P (onFulfilled cell) = 0%nat /\ waiting P (onRejected cell) = 0%nat.

(** No handler of the kind is anywhere: none waits and none is queued. *)
Definition nowhere (P : Handler -> bool) (rt : Runtime) : Prop :=
  (forall p cell, promises rt !! p = Some cell -> clean P cell)
  /\ queued P (jobs rt) = 0%nat.

(** The cancellation of a signal as [getCancelToken] sees it: the promise
    has been rejected with the marker. *)
Definition rejected_with_marker (p : ploc) (rt : Runtime) : Prop :=
  promise_state p rt = Some (Rejected cancel_marker).

(** Putting jobs in front of the queue. *)
Definition prepend (js : list (Handler * JsValue)) (rt : Runtime) : Runtime :=
  set_jobs (js ++ jobs rt) rt.

(** An operation of the platform is quiet when it leaves the signals and
    the tokens alone, removes no promise, and treats the job queue as a
    queue: it looks at no job and only adds jobs at the end. *)
Definition quiet (f : Runtime -> Runtime) : Prop :=
  forall rt,
    signals (f rt) = signals rt
    /\ tokens (f rt) = tokens rt
    /\ (forall x, is_Some (promises rt !! x) -> is_Some (promises (f rt) !! x))
    /\ (forall js, f (prepend js rt) = prepend js (f rt)).

(** What every state of the runtime satisfies: the promise of a signal
    exists; no handler, waiting or queued, belongs to a token that does not
    exist yet; and none would settle a promise that does not exist yet. *)
Record runtime_inv (rt : Runtime) : Prop := mk_runtime_inv {
  rinv_signal : forall s sg,
    signals rt !! s = Some sg -> is_Some (promises rt !! AbortSignal.pr sg);
  rinv_nowhere : forall c, tokens rt !! c = None -> nowhere (handles c) rt;
  rinv_targets : forall p, promises rt !! p = None -> nowhere (targets p) rt
}.

(** Modelled from the spec: an abort signal is exclusively owned by its
    instance and only ever set by that instance's [cancel()].  The events
    of the runtime that leave promise [p] to its signal: every event but a
    call of a resolving function of [p] by someone else. *)
Inductive owned_step (p : ploc) : Runtime -> Runtime -> Prop :=
  | owned_new_signal rt :
      owned_step p rt (new_signal rt).2
  | owned_cancel rt s :
      owned_step p rt (signal_cancel s rt)
  | owned_token rt s :
      is_Some (signals rt !! s) ->
      owned_step p rt (getCancelToken axios s rt).2
  | owned_job rt h reason js :
      jobs rt = (h, reason) :: js ->
      owned_step p rt (run_handler h reason (set_jobs js rt))
  | owned_defer rt :
      owned_step p rt (defer rt).2
  | owned_call rt p' c :
      p' ≠ p ->
      owned_step p rt (promise_call p' c rt).

(** The runs that leave [p] to its signal. *)
Definition owned_reachable (p : ploc) (rt0 rt : Runtime) : Prop :=
  rtc (owned_step p) rt0 rt.

(** Signal [s] with promise [p] as [cancel()] and nobody else leaves it:
    the promise is pending and none of its resolving functions has been
    called while the signal is not cancelled, and rejected with the marker
    once it is; no other signal has this promise; and no handler, waiting or
    queued, would settle it. *)
Record disciplined (s : sloc) (p : ploc) (rt : Runtime) : Prop :=
  mk_disciplined {
  disc_signal :
    exists sg cell,
      signals rt !! s = Some sg /\ AbortSignal.pr sg = p
      /\ promises rt !! p = Some cell
      /\ if AbortSignal.isCanceled sg
         then pstate cell = Rejected cancel_marker
         else pstate cell = Pending /\ alreadyResolved cell = false;
  disc_own : forall s' sg',
    signals rt !! s' = Some sg' -> AbortSignal.pr sg' = p -> s' = s;
  disc_untargeted : nowhere (targets p) rt
}.

(** The account of a token's handler, by the state of the promise it was
    registered on; [w] handlers wait on the promise, [q] jobs of the token
    are queued, [cancel] has been invoked [n] times.  While the promise is
    pending the handler waits, no job is queued and [cancel] has not been
    invoked.  Once it is fulfilled nothing waits or is queued and [cancel]
    has not been invoked.  Once it is rejected the handler waits no more: if
    the reason is the marker there is exactly one of a queued job and an
    invocation of [cancel]; if it is another reason there is at most a
    queued job and [cancel] has not been invoked. *)
Definition balanced (st : PromiseState) (w q n : nat) : Prop :=
  match st with
  | Pending => w = 1%nat /\ q = 0%nat /\ n = 0%nat
  | Fulfilled _ => w = 0%nat /\ q = 0%nat /\ n = 0%nat
  | Rejected reason =>
      w = 0%nat
      /\ if strict_eq reason cancel_marker then (q + n = 1)%nat
         else (q <= 1)%nat /\ n = 0%nat
  end.

(** What holds of a token [c] whose handler was registered on promise [p],
    from the request on: the token exists; its handler is nowhere but among
    the rejection handlers of [p]; each of its jobs carries the reason [p]
    was rejected with; and the account of its handler is balanced. *)
Record token_inv (c : tloc) (p : ploc) (rt : Runtime) : Prop :=
  mk_token_inv {
  tinv_token : is_Some (tokens rt !! c);
  tinv_fulfil : forall p' cell,
    promises rt !! p' = Some cell ->
    waiting (handles c) (onFulfilled cell) = 0%nat;
  tinv_elsewhere : forall p' cell,
    p' ≠ p -> promises rt !! p' = Some cell ->
    waiting (handles c) (onRejected cell) = 0%nat;
  tinv_jobs :
    Forall
      (fun j => handles c j.1 = true -> promise_state p rt = Some (Rejected j.2))
      (jobs rt);
  tinv_balance :
    exists cell,
      promises rt !! p = Some cell
      /\ balanced (pstate cell) (waiting (handles c) (onRejected cell))
           (queued (handles c) (jobs rt)) (cancel_calls c rt)
}.

(* ===================================================================== *)
(** * [printTask] ([utils.ts], lines 112-154)                            *)
(* ===================================================================== *)

(** The four tests of [printTask], in the order of the source: each one
    that passes overwrites [taskType]. *)
Definition taskType (t : Task) : string :=
  let taskType := "General"%string in
  let taskType := if _isDropping t then "Drop"%string else taskType in
  let taskType := if _isEnqueuing t then "Enqueue"%string else taskType in
  let taskType := if _isRestartable t then "Restartable"%string else taskType in
  let taskType := if _isKeepingLatest t then "KeepLatest"%string else taskType in
  taskType.

(** [colorEmoji] of an instance row; [None] is the variable left
    [undefined]. *)
Definition colorEmoji (i : TaskInstance) : option string :=
  if isSuccessful i then Some "🍏"%string
  else if isRunning i || isEnqueued i then Some "🍊"%string
  else if isError i || isCanceled i || isDropped i then Some "🔴"%string
  else None.

(** A row of the table [printTask] prints. *)
Record Row : Type := mkRow {
  row_status : string;
  row_value : JsValue;
  row_error : JsValue
}.

(** What [printTask] writes to the console. *)
Inductive ConsoleCall : Type :=
  | ConsoleLog (line : string)
  | ConsoleTable (rows : list Row).

Section PrintTask.
(** The platform's conversion of a number to a string, and the string a
    status value is printed as ([status] is declared in [TaskInstance.ts],
    not under [src/]). *)
Context (show_number : number -> string) (show_status : Status.t -> string).

(** The template [`${header} ...`] of the header line. *)
Definition header (t : Task) : string :=
  let header := (taskType t +:+ " Task")%string in
  if negb (String.eqb (taskType t) "General") then
    (header +:+ " with maxConcurrency " +:+ show_number (_maxConcurrency t))%string
  else header.

(** The callback of [task._instances.map]: the template
    [`${colorEmoji} ${status}`] prints an [undefined] emoji as the word
    [undefined]. *)
Definition instanceRow (i : TaskInstance) : Row :=
  mkRow
    (default "undefined"%string (colorEmoji i) +:+ " " +:+ show_status (status i))
    (value i) (error i).

(** [task._instances.map(...)]: one row for the object behind each
    reference of the array. *)
Definition instanceRows (w : World) : list Row :=
  omap (fun l => instanceRow <$> objs w !! l) (_instances (task w)).

Definition printTask (w : World) : list ConsoleCall :=
  [ConsoleLog ("🚦 " +:+ header (task w)); ConsoleTable (instanceRows w)].
End PrintTask.

(* ===================================================================== *)
(** * The filtered view, in the words of the specification               *)
(* ===================================================================== *)

(** [selects P l r]: [r] holds exactly the elements of [l] that satisfy [P],
    in the order they have in [l].  Walking [l] from its oldest element,
    each element that satisfies [P] is the next element of [r], and each
    other element is passed over. *)
Inductive selects {A : Type} (P : A -> Prop) : list A -> list A -> Prop :=
  | selects_nil : selects P [] []
  | selects_keep x l r : P x -> selects P l r -> selects P (x :: l) (x :: r)
  | selects_skip x l r : ~ P x -> selects P l r -> selects P (x :: l) r.

(* ===================================================================== *)
(** * Array indexing                                                     *)
(* ===================================================================== *)

Section Indexing.
Context {A : Type}.
Implicit Types a : list A.

Lemma js_index_0 a : js_index a 0 = head a.
Proof. unfold js_index. simpl. by rewrite head_lookup. Qed.

Lemma js_index_last a : js_index a (js_length a - 1) = last a.
Proof.
  unfold js_index, js_length. destruct a as [|x a].
  - reflexivity.
  - rewrite last_lookup.
    replace (Z.of_nat (length (x :: a)) - 1) with (Z.of_nat (length a))
      by (simpl length; lia).
    destruct (Z.ltb_spec (Z.of_nat (length a)) 0) as [Hlt|_]; [lia|].
    by rewrite Nat2Z.id.
Qed.

Lemma js_index_negative a i : i < 0 -> js_index a i = None.
Proof.
  intros Hi. unfold js_index.
  by destruct (Z.ltb_spec i 0) as [_|Hge]; [|lia].
Qed.
End Indexing.

(* ===================================================================== *)
(** * Filtered views                                                     *)
(* ===================================================================== *)

Section Views.
Implicit Types (w : World) (l : loc) (k : BooleanKeys).

Lemma filteredInstances_unfold (cb : World -> Task) k w :
  filteredInstances cb (Some k) w
  = List.filter (read_field k (objs w)) (_instances (cb w)).
Proof. reflexivity. Qed.

Lemma activeInstances_unfold w :
  _activeInstances w
  = List.filter
      (fun l => read_field KisRunning (objs w) l
                || read_field KisEnqueued (objs w) l)
      (_instances (task w)).
Proof. reflexivity. Qed.

Lemma filter_selects {A : Type} (f : A -> bool) (ls : list A) :
  selects (fun x => f x = true) ls (List.filter f ls).
Proof.
  induction ls as [|x ls IH]; simpl.
  - constructor.
  - destruct (f x) eqn:Hx.
    + by apply selects_keep.
    + apply selects_skip; [congruence | done].
Qed.

(** [selects] leaves no choice: it names one sequence. *)
Lemma selects_unique {A : Type} (P : A -> Prop) (ls r1 r2 : list A) :
  selects P ls r1 -> selects P ls r2 -> r1 = r2.
Proof.
  intros H1. revert r2.
  induction H1 as [|x ls r Hx _ IH|x ls r Hx _ IH];
    intros r2 H2; inversion H2; subst; try done.
  - f_equal. by apply IH.
  - by apply IH.
Qed.

Lemma filter_sublist {A : Type} (f : A -> bool) (ls : list A) :
  sublist (List.filter f ls) ls.
Proof.
  induction ls as [|x ls IH]; simpl; [constructor|].
  destruct (f x); by constructor.
Qed.

Lemma elem_of_filter {A : Type} (f : A -> bool) (ls : list A) (x : A) :
  x ∈ List.filter f ls <-> x ∈ ls /\ f x = true.
Proof. rewrite !list_elem_of_In. apply filter_In. Qed.
End Views.

(** C5.  Reading the view [filteredInstances(cb, key)] in any state yields
    exactly the instances of the task's instance sequence whose field [key]
    is true in that state, in the order they have in that sequence: the view
    is the selection the specification describes, it is a subsequence of
    [_instances], and an instance is in it exactly when it is in
    [_instances] with the field true. *)
Theorem filteredInstances_reads_selection
    (cb : World -> Task) (key : BooleanKeys) (w : World) :
  let view := filteredInstances cb (Some key) w in
  selects (fun l => read_field key (objs w) l = true) (_instances (cb w)) view
  /\ sublist view (_instances (cb w))
  /\ (forall l, l ∈ view
                <-> l ∈ _instances (cb w) /\ read_field key (objs w) l = true).
Proof.
  intros view. subst view. rewrite filteredInstances_unfold.
  split; [apply filter_selects|].
  split; [apply filter_sublist|].
  intros l. apply elem_of_filter.
Qed.

(** The view is recomputed from the state it is read in: once a running
    instance has become successful, the view for [isRunning] no longer holds
    it and the view for [isSuccessful] does. *)
Lemma filteredInstances_fresh_after_success
    (w : World) (l : loc) (v : JsValue) :
  l ∈ _instances (task w) ->
  read_field KisRunning (objs w) l = true ->
  let w' := mkWorld (task w) (alter (mark_successful v) l (objs w)) in
  (l ∉ filteredInstances task (Some KisRunning) w')
  /\ (l ∈ filteredInstances task (Some KisSuccessful) w').
Proof.
  intros Hin Hrun w'. subst w'. rewrite !filteredInstances_unfold. simpl.
  rewrite !elem_of_filter. unfold read_field in *.
  rewrite lookup_alter_eq. destruct (objs w !! l) as [i|]; [|done].
  simpl. split; [|done]. by intros [_ ?].
Qed.

(** C6.  Called without a key, [filteredInstances] gives a view that reads
    as the empty sequence in every state, whatever the accessor returns and
    whatever the instance collection holds; the embedding is a total
    function, so no read raises. *)
Theorem filteredInstances_no_key_empty (cb : World -> Task) (w : World) :
  filteredInstances cb None w = [].
Proof. reflexivity. Qed.

(** C7.  [computedLength(cb)] reads as the length of the sequence [cb]
    returns; [computedFirstOf(cb)] as its first element and
    [computedLastOf(cb)] as its last element, each [undefined] ([None])
    exactly when the sequence is empty. *)
Theorem computed_scalar_views {A : Type} (cb : World -> list A) (w : World) :
  computedLength cb w = Z.of_nat (length (cb w))
  /\ computedFirstOf cb w = head (cb w)
  /\ computedLastOf cb w = last (cb w)
  /\ (computedFirstOf cb w = None <-> cb w = [])
  /\ (computedLastOf cb w = None <-> cb w = []).
Proof.
  unfold computedLength, computedFirstOf, computedLastOf. cbv zeta.
  rewrite js_index_0, js_index_last.
  repeat split; try apply head_None; try apply last_None.
Qed.

(* ===================================================================== *)
(** * Mutation through references                                        *)
(* ===================================================================== *)

Section Mutation.
Implicit Types (w : World) (l : loc) (f g : TaskInstance -> TaskInstance).

Lemma task_assign l f w : task (assign l f w) = task w.
Proof. reflexivity. Qed.

Lemma objs_assign_eq l f w : objs (assign l f w) !! l = f <$> objs w !! l.
Proof. apply lookup_alter_eq. Qed.

Lemma objs_assign_ne l l' f w :
  l ≠ l' -> objs (assign l f w) !! l' = objs w !! l'.
Proof. intros Hne. by apply lookup_alter_ne. Qed.

Lemma read_field_assign_ne k l l' f w :
  l ≠ l' ->
  read_field k (objs (assign l f w)) l' = read_field k (objs w) l'.
Proof. intros Hne. unfold read_field. by rewrite objs_assign_ne. Qed.

(** A walk over an array of references that rewrites each object with [f]:
    the task's own fields stay as they are. *)
Lemma task_foldl_assign (step : World -> loc -> World) (ls : list loc) w :
  (forall w' l, task (step w' l) = task w') ->
  task (foldl step w ls) = task w.
Proof.
  intros Hstep. revert w.
  induction ls as [|l ls IH]; intros w; simpl; [done|].
  by rewrite IH, Hstep.
Qed.

(** Objects the array does not point to are not touched. *)
Lemma objs_foldl_assign_notin f (ls : list loc) w l' :
  l' ∉ ls ->
  objs (foldl (fun w' l => assign l f w') w ls) !! l' = objs w !! l'.
Proof.
  revert w. induction ls as [|l ls IH]; intros w Hnotin; simpl; [done|].
  apply not_elem_of_cons in Hnotin as [Hne Hnotin].
  rewrite IH by done. by apply objs_assign_ne.
Qed.

(** Objects the array points to are rewritten; for an [f] that changes
    nothing when applied again, it does not matter how often the array
    points to them. *)
Lemma objs_foldl_assign_in f (ls : list loc) w l' :
  (forall i, f (f i) = f i) ->
  l' ∈ ls ->
  objs (foldl (fun w' l => assign l f w') w ls) !! l' = f <$> objs w !! l'.
Proof.
  intros Hidem. revert w.
  induction ls as [|l ls IH]; intros w Hin; simpl.
  - by apply elem_of_nil in Hin.
  - destruct (decide (l' ∈ ls)) as [Hin'|Hnotin].
    + rewrite IH by done.
      destruct (decide (l = l')) as [->|Hne].
      * rewrite objs_assign_eq. destruct (objs w !! l'); simpl; [|done].
        by rewrite Hidem.
      * by rewrite objs_assign_ne.
    + rewrite objs_foldl_assign_notin by done.
      apply elem_of_cons in Hin as [->|Hin]; [|done].
      apply objs_assign_eq.
Qed.

Lemma assign_assign l f g w :
  assign l g (assign l f w) = assign l (g ∘ f) w.
Proof.
  unfold assign. simpl. f_equal.
  apply alter_alter_eq.
Qed.

Lemma dropEnqueued_unfold w :
  dropEnqueued w
  = foldl (fun w' l => assign l mark_dropped w') w (_enqueuedInstances w).
Proof.
  unfold dropEnqueued. generalize (_enqueuedInstances w) as ls. intros ls.
  revert w. induction ls as [|l ls IH]; intros w; simpl; [done|].
  rewrite assign_assign. apply IH.
Qed.

Lemma mark_dropped_idem i : mark_dropped (mark_dropped i) = mark_dropped i.
Proof. reflexivity. Qed.

Lemma elem_of_view_lookup (cb : World -> Task) k w l :
  l ∈ filteredInstances cb (Some k) w ->
  exists i, objs w !! l = Some i /\ get_field k i = true.
Proof.
  rewrite filteredInstances_unfold, elem_of_filter.
  intros [_ Hread]. unfold read_field in Hread.
  destruct (objs w !! l) as [i|]; [eauto | done].
Qed.
End Mutation.

(** C3.  After [dropEnqueued(task)], every instance of the enqueued
    subsequence has [isEnqueued = false] and [isDropped = true] and its
    other fields as before; every instance outside that subsequence is
    exactly as it was, and so is every instance whose [isEnqueued] is false,
    the running instances among them; the task's own fields are as they
    were. *)
Theorem dropEnqueued_marks_backlog_only (w : World) (l : loc) :
  (l ∈ _enqueuedInstances w ->
     exists i,
       objs w !! l = Some i
       /\ objs (dropEnqueued w) !! l
          = Some (mkTaskInstance false (isRunning i) (isSuccessful i)
                    (isError i) (isCanceled i) true (value i) (error i)
                    (signalIsCanceled i)))
  /\ (l ∉ _enqueuedInstances w -> objs (dropEnqueued w) !! l = objs w !! l)
  /\ (read_field KisEnqueued (objs w) l = false ->
      objs (dropEnqueued w) !! l = objs w !! l)
  /\ task (dropEnqueued w) = task w.
Proof.
  rewrite dropEnqueued_unfold.
  assert (Hout : l ∉ _enqueuedInstances w ->
            objs (foldl (fun w' l0 => assign l0 mark_dropped w') w
                    (_enqueuedInstances w)) !! l = objs w !! l)
    by apply objs_foldl_assign_notin.
  repeat split.
  - intros Hin.
    destruct (elem_of_view_lookup _ _ _ _ Hin) as (i & Hi & _).
    exists i. split; [done|].
    rewrite objs_foldl_assign_in by (done || apply mark_dropped_idem).
    by rewrite Hi.
  - done.
  - intros Henq. apply Hout.
    unfold _enqueuedInstances. rewrite filteredInstances_unfold, elem_of_filter.
    intros [_ Hread]. congruence.
  - by apply task_foldl_assign.
Qed.

Lemma dropEnqueued_marks_backlog_only_witness :
  let w := perform 2%nat (perform 1%nat (perform 0%nat
             (new_task (Int 1) false true false false))) in
  _enqueuedInstances w = [1%nat; 2%nat]
  /\ (exists i,
        objs w !! 1%nat = Some i
        /\ objs (dropEnqueued w) !! 1%nat
           = Some (mkTaskInstance false (isRunning i) (isSuccessful i)
                     (isError i) (isCanceled i) true (value i) (error i)
                     (signalIsCanceled i)))
  /\ objs (dropEnqueued w) !! 0%nat = objs w !! 0%nat.
Proof.
  intros w. split; [reflexivity|]. split.
  - apply (dropEnqueued_marks_backlog_only w 1%nat).
    apply list_elem_of_here.
  - apply (dropEnqueued_marks_backlog_only w 0%nat). reflexivity.
Defined.

(* ===================================================================== *)
(** * Eviction under the Restartable policy                              *)
(* ===================================================================== *)

Section Eviction.
Implicit Types (w : World) (l : loc).

Lemma cancelFirstRunning_unfold w :
  cancelFirstRunning w
  = match head (_activeInstances w) with
    | Some l => assign l cancel w
    | None => w
    end.
Proof. unfold cancelFirstRunning. by rewrite js_index_0. Qed.

(** With nothing enqueued, the active instances are the running ones. *)
Lemma active_is_running w :
  _enqueuedInstances w = [] -> _activeInstances w = _runningInstances w.
Proof.
  unfold _enqueuedInstances, _runningInstances.
  rewrite activeInstances_unfold, !filteredInstances_unfold.
  intros Hnone. apply filter_ext_in. intros l Hl.
  destruct (read_field KisEnqueued (objs w) l) eqn:Henq.
  - exfalso. eapply (elem_of_nil l). rewrite <- Hnone.
    apply elem_of_filter. by rewrite list_elem_of_In.
  - by rewrite orb_false_r.
Qed.

(** The head of a filtered sequence is the oldest element that passes:
    everything before it in the sequence fails the test. *)
Lemma head_filter_oldest {A : Type} (f : A -> bool) (ls : list A) (x : A) :
  head (List.filter f ls) = Some x ->
  exists older newer,
    ls = older ++ x :: newer
    /\ Forall (fun y => f y = false) older
    /\ f x = true.
Proof.
  induction ls as [|y ls IH]; simpl; [done|].
  destruct (f y) eqn:Hy; simpl.
  - intros [= ->]. by exists [], ls.
  - intros Hhead. destruct (IH Hhead) as (older & newer & -> & Holder & Hx).
    exists (y :: older), newer. repeat split; [|done].
    by constructor.
Qed.

Lemma cancel_running i :
  isRunning i = true ->
  cancel i
  = mkTaskInstance false false (isSuccessful i) (isError i) true
      (isDropped i) (value i) (error i) true.
Proof. intros Hrun. unfold cancel. by rewrite Hrun. Qed.
End Eviction.

(** C10.  On a task with no active instance [cancelFirstRunning] does
    nothing: the world after the call is the world before it, so no
    instance is cancelled and no state is changed; the embedding is a total
    function, so the call does not raise. *)
Theorem cancelFirstRunning_without_active (w : World) :
  _activeInstances w = [] -> cancelFirstRunning w = w.
Proof.
  intros Hnone. rewrite cancelFirstRunning_unfold. by rewrite Hnone.
Qed.

Lemma cancelFirstRunning_without_active_witness :
  let w := assign 0%nat (mark_successful (VNumber 7))
             (perform 0%nat (new_task (Int 1) false false true false)) in
  _activeInstances w = [] /\ cancelFirstRunning w = w.
Proof.
  split; [reflexivity|].
  apply cancelFirstRunning_without_active. reflexivity.
Defined.

(** C2.  Under the Restartable policy no instance is ever enqueued
    ([restartable_never_enqueues] below).  There, when [l] is the first
    currently-running instance, [l] is the instance at index 0 of the active
    subsequence; it is the oldest running instance by invocation order; the
    eviction step cancels it; and it changes no other instance and none of
    the task's own fields. *)
Theorem cancelFirstRunning_cancels_first_running (w : World) (l : loc) :
  _enqueuedInstances w = [] ->
  js_index (_runningInstances w) 0 = Some l ->
  js_index (_activeInstances w) 0 = Some l
  /\ (exists older newer,
        _instances (task w) = older ++ l :: newer
        /\ Forall (fun l' => read_field KisRunning (objs w) l' = false) older)
  /\ (exists i,
        objs w !! l = Some i
        /\ objs (cancelFirstRunning w) !! l
           = Some (mkTaskInstance false false (isSuccessful i) (isError i)
                     true (isDropped i) (value i) (error i) true))
  /\ (forall l', l' ≠ l -> objs (cancelFirstRunning w) !! l' = objs w !! l')
  /\ task (cancelFirstRunning w) = task w.
Proof.
  intros Hnone Hfirst.
  assert (Hhead : head (_activeInstances w) = Some l).
  { rewrite active_is_running by done. by rewrite <- js_index_0. }
  rewrite cancelFirstRunning_unfold, Hhead.
  rewrite js_index_0 in Hfirst |- *.
  split; [done|].
  unfold _runningInstances in Hfirst. rewrite filteredInstances_unfold in Hfirst.
  destruct (head_filter_oldest _ _ _ Hfirst) as (older & newer & Hsplit & Holder & Hrun).
  split; [by exists older, newer|].
  split.
  - unfold read_field in Hrun.
    destruct (objs w !! l) as [i|] eqn:Hi; [|done].
    exists i. split; [done|].
    rewrite objs_assign_eq, Hi. simpl. f_equal. by apply cancel_running.
  - split; [|done].
    intros l' Hne. by apply objs_assign_ne.
Qed.

Lemma cancelFirstRunning_cancels_first_running_witness :
  let w := perform 1%nat (perform 0%nat (new_task (Int 2) false false true false)) in
  js_index (_activeInstances w) 0 = Some 0%nat
  /\ (exists older newer,
        _instances (task w) = older ++ 0%nat :: newer
        /\ Forall (fun l' => read_field KisRunning (objs w) l' = false) older)
  /\ (exists i,
        objs w !! 0%nat = Some i
        /\ objs (cancelFirstRunning w) !! 0%nat
           = Some (mkTaskInstance false false (isSuccessful i) (isError i)
                     true (isDropped i) (value i) (error i) true))
  /\ (forall l', l' ≠ 0%nat -> objs (cancelFirstRunning w) !! l' = objs w !! l')
  /\ task (cancelFirstRunning w) = task w.
Proof.
  apply cancelFirstRunning_cancels_first_running; reflexivity.
Defined.

(* ===================================================================== *)
(** * Status and the six booleans                                        *)
(* ===================================================================== *)

Section Consistency.
Implicit Types i : TaskInstance.

Ltac by_flags i :=
  destruct i as [[] [] [] [] [] [] ? ? ?];
  cbv [flags_set status status_of_key get_field cancel mark_running
       mark_enqueued mark_dropped mark_successful mark_error set_isEnqueued
       set_isDropped new_instance isEnqueued isRunning isSuccessful isError
       isCanceled isDropped value error signalIsCanceled Nat.b2n orb] in *;
  simpl in *.

(** An instance with at most one boolean set is consistent. *)
Lemma flags_consistent i : (flags_set i <= 1)%nat -> consistent i.
Proof.
  intros Hle key. by_flags i; destruct key; simpl; split; intros; (done || lia).
Qed.

(** And only such an instance is. *)
Lemma consistent_flags i : consistent i -> (flags_set i <= 1)%nat.
Proof.
  intros Hc.
  pose proof (Hc KisEnqueued) as H1. pose proof (Hc KisRunning) as H2.
  pose proof (Hc KisSuccessful) as H3. pose proof (Hc KisError) as H4.
  pose proof (Hc KisCanceled) as H5. pose proof (Hc KisDropped) as H6.
  clear Hc. by_flags i; try lia;
    repeat match goal with
           | H : true = true <-> _ |- _ => destruct H as [H _]; specialize (H eq_refl)
           end; congruence.
Qed.

Lemma flags_new_instance : (flags_set new_instance <= 1)%nat.
Proof. cbv. lia. Qed.

Lemma flags_cancel i : (flags_set i <= 1)%nat -> (flags_set (cancel i) <= 1)%nat.
Proof. by_flags i; lia. Qed.

Lemma flags_mark_dropped i :
  isEnqueued i = true -> (flags_set i <= 1)%nat ->
  (flags_set (mark_dropped i) <= 1)%nat.
Proof. by_flags i; (done || lia). Qed.

Lemma flags_mark_running_enqueued i :
  isEnqueued i = true -> (flags_set i <= 1)%nat ->
  (flags_set (mark_running i) <= 1)%nat.
Proof. by_flags i; (done || lia). Qed.

Lemma flags_mark_successful v i :
  isRunning i = true -> (flags_set i <= 1)%nat ->
  (flags_set (mark_successful v i) <= 1)%nat.
Proof. by_flags i; (done || lia). Qed.

Lemma flags_mark_error e i :
  isRunning i = true -> (flags_set i <= 1)%nat ->
  (flags_set (mark_error e i) <= 1)%nat.
Proof. by_flags i; (done || lia). Qed.

Lemma flags_one_only i k k' :
  (flags_set i <= 1)%nat -> get_field k i = true -> k ≠ k' ->
  get_field k' i = false.
Proof.
  intros Hle Hk Hne. by_flags i; destruct k, k'; simpl in *; (done || lia).
Qed.
End Consistency.

(* ===================================================================== *)
(** * Views under mutation                                               *)
(* ===================================================================== *)

Section ViewsUnderMutation.
Implicit Types (w : World) (l : loc) (k : BooleanKeys)
  (f : TaskInstance -> TaskInstance).

(** The view of the task for field [k]. *)
Local Abbreviation view k w := (filteredInstances task (Some k) w).

Lemma filter_nil_iff {A : Type} (p : A -> bool) (ls : list A) :
  List.filter p ls = [] <-> forall x, x ∈ ls -> p x = false.
Proof.
  induction ls as [|y ls IH]; simpl.
  - split; [|done]. intros _ x Hx. by apply elem_of_nil in Hx.
  - destruct (p y) eqn:Hy.
    + split; [done|]. intros Hall.
      specialize (Hall y (list_elem_of_here _ _)). congruence.
    + rewrite IH. split.
      * intros Hall x [->|Hx]%elem_of_cons; auto.
      * intros Hall x Hx. apply Hall. by apply list_elem_of_further.
Qed.

Lemma filter_ext_elem_of {A : Type} (p q : A -> bool) (ls : list A) :
  (forall x, x ∈ ls -> p x = q x) -> List.filter p ls = List.filter q ls.
Proof.
  intros Hext. apply filter_ext_in. intros x Hx. apply Hext.
  by apply list_elem_of_In.
Qed.

Lemma read_field_assign_eq k l f w :
  read_field k (objs (assign l f w)) l
  = match objs w !! l with
    | Some i => get_field k (f i)
    | None => false
    end.
Proof.
  unfold read_field. rewrite objs_assign_eq. by destruct (objs w !! l).
Qed.

(** Rewriting an object the task does not point to changes no view. *)
Lemma view_assign_notin k l f w :
  l ∉ _instances (task w) -> view k (assign l f w) = view k w.
Proof.
  intros Hnotin. rewrite !filteredInstances_unfold, task_assign.
  apply filter_ext_elem_of. intros l' Hl'.
  apply read_field_assign_ne. by intros ->.
Qed.

(** Rewriting in a way that keeps field [k] changes no view for [k]. *)
Lemma view_assign_same k l f w :
  (forall i, objs w !! l = Some i -> get_field k (f i) = get_field k i) ->
  view k (assign l f w) = view k w.
Proof.
  intros Hkeep. rewrite !filteredInstances_unfold, task_assign.
  apply filter_ext_elem_of. intros l' _.
  destruct (decide (l = l')) as [<-|Hne].
  - rewrite read_field_assign_eq.
    unfold read_field. destruct (objs w !! l) as [i|] eqn:Hi; [|done].
    by apply Hkeep.
  - by apply read_field_assign_ne.
Qed.

(** Rewriting one object of the task moves the length of a view by what
    the rewrite does to the field. *)
Lemma view_length_assign k l f w i :
  NoDup (_instances (task w)) ->
  l ∈ _instances (task w) ->
  objs w !! l = Some i ->
  (length (view k (assign l f w)) + Nat.b2n (get_field k i)
   = length (view k w) + Nat.b2n (get_field k (f i)))%nat.
Proof.
  intros Hnd Hin Hi. rewrite !filteredInstances_unfold, task_assign.
  apply list_elem_of_split in Hin as (older & newer & Hsplit).
  rewrite Hsplit in Hnd |- *.
  apply NoDup_app in Hnd as (_ & Hold & Hnew).
  apply NoDup_cons in Hnew as [Hnew _].
  assert (Hsame : forall ls, l ∉ ls ->
            List.filter (read_field k (objs (assign l f w))) ls
            = List.filter (read_field k (objs w)) ls).
  { intros ls Hls. apply filter_ext_elem_of. intros l' Hl'.
    apply read_field_assign_ne. by intros ->. }
  rewrite !List.filter_app. cbn [List.filter].
  rewrite !Hsame by (done || (intros ?; by eapply Hold, list_elem_of_here)).
  rewrite read_field_assign_eq, Hi.
  replace (read_field k (objs w) l) with (get_field k i)
    by (unfold read_field; by rewrite Hi).
  destruct (get_field k (f i)), (get_field k i);
    rewrite ?length_app; simpl; lia.
Qed.

(** A rewrite that sets field [k] on no object keeps an empty view
    empty. *)
Lemma view_nil_assign k l f w :
  (forall i, objs w !! l = Some i ->
             get_field k (f i) = true -> get_field k i = true) ->
  view k w = [] -> view k (assign l f w) = [].
Proof.
  intros Hmono. rewrite !filteredInstances_unfold, task_assign.
  rewrite !filter_nil_iff. intros Hall l' Hl'.
  destruct (decide (l = l')) as [<-|Hne].
  - rewrite read_field_assign_eq. specialize (Hall l Hl').
    unfold read_field in Hall.
    destruct (objs w !! l) as [i|] eqn:Hi; [|done].
    destruct (get_field k (f i)) eqn:Hf; [|done].
    rewrite <- Hall. symmetry. by apply Hmono.
  - rewrite <- (Hall l' Hl'). by apply read_field_assign_ne.
Qed.

(** A newly pushed instance is in no view, and the views of the older
    instances are as before. *)
Lemma view_push k l w :
  objs w !! l = None ->
  view k (push_instance l w) = view k w.
Proof.
  intros Hfresh. rewrite !filteredInstances_unfold. simpl.
  rewrite List.filter_app. simpl.
  unfold read_field at 2. rewrite lookup_insert_eq.
  replace (get_field k new_instance) with false by (by destruct k).
  rewrite app_nil_r.
  apply filter_ext_elem_of. intros l' _.
  unfold read_field.
  destruct (decide (l = l')) as [<-|Hne].
  - by rewrite lookup_insert_eq, Hfresh; destruct k.
  - by rewrite lookup_insert_ne.
Qed.
End ViewsUnderMutation.

(* ===================================================================== *)
(** * The shape of the worlds a task reaches                             *)
(* ===================================================================== *)

Section Shape.
Implicit Types (w : World) (l : loc) (f : TaskInstance -> TaskInstance).

Lemma view_lookup k w l :
  l ∈ filteredInstances task (Some k) w ->
  l ∈ _instances (task w)
  /\ exists i, objs w !! l = Some i /\ get_field k i = true.
Proof.
  intros Hin. split; [|by eapply elem_of_view_lookup].
  rewrite filteredInstances_unfold in Hin.
  by apply elem_of_filter in Hin as [? _].
Qed.

Lemma read_field_lookup k w l :
  read_field k (objs w) l = true ->
  exists i, objs w !! l = Some i /\ get_field k i = true.
Proof.
  unfold read_field. destruct (objs w !! l) as [i|]; [eauto | done].
Qed.

Lemma head_active_elem w l :
  head (_activeInstances w) = Some l ->
  l ∈ _instances (task w)
  /\ read_field KisRunning (objs w) l || read_field KisEnqueued (objs w) l
     = true.
Proof.
  intros Hhead%head_Some_elem_of.
  rewrite activeInstances_unfold in Hhead.
  by apply elem_of_filter in Hhead.
Qed.

Lemma shape_new_task m d e r k : shape_inv (new_task m d e r k).
Proof.
  split; simpl.
  - apply NoDup_nil_2.
  - intros l Hl. by apply elem_of_nil in Hl.
  - intros l i Hi. by rewrite lookup_empty in Hi.
Qed.

(** Rewriting one object keeps the shape when the rewritten object has at
    most one boolean set. *)
Lemma shape_assign l f w :
  shape_inv w ->
  (forall i, objs w !! l = Some i -> (flags_set (f i) <= 1)%nat) ->
  shape_inv (assign l f w).
Proof.
  intros [Hnd Halloc Hflags] Hf. split; [done| |].
  - intros l' Hl'. rewrite task_assign in Hl'.
    apply lookup_alter_is_Some. by apply Halloc.
  - intros l' i'. destruct (decide (l = l')) as [<-|Hne].
    + rewrite objs_assign_eq.
      destruct (objs w !! l) as [i|] eqn:Hi; simpl; [|done].
      intros [= <-]. by apply Hf.
    + rewrite objs_assign_ne by done. apply Hflags.
Qed.

Lemma shape_push l w :
  shape_inv w -> objs w !! l = None -> shape_inv (push_instance l w).
Proof.
  intros [Hnd Halloc Hflags] Hfresh.
  assert (Hnotin : l ∉ _instances (task w)).
  { intros Hin. destruct (Halloc l Hin) as [i Hi]. congruence. }
  split; simpl.
  - apply NoDup_app. repeat split; [done| |apply NoDup_singleton].
    intros l' Hl' ->%list_elem_of_singleton. done.
  - intros l' [Hl'| ->%list_elem_of_singleton]%elem_of_app.
    + apply lookup_insert_is_Some'. right. by apply Halloc.
    + apply lookup_insert_is_Some'. by left.
  - intros l' i'. destruct (decide (l = l')) as [<-|Hne].
    + rewrite lookup_insert_eq. intros [= <-]. apply flags_new_instance.
    + rewrite lookup_insert_ne by done. apply Hflags.
Qed.

Lemma shape_cancel l w : shape_inv w -> shape_inv (assign l cancel w).
Proof.
  intros Hs. apply shape_assign; [done|].
  intros i Hi. apply flags_cancel. by eapply shape_flags.
Qed.

Lemma shape_cancelFirstRunning w :
  shape_inv w -> shape_inv (cancelFirstRunning w).
Proof.
  intros Hs. rewrite cancelFirstRunning_unfold.
  destruct (head (_activeInstances w)); [by apply shape_cancel | done].
Qed.

Lemma objs_dropEnqueued w l :
  objs (dropEnqueued w) !! l
  = if bool_decide (l ∈ _enqueuedInstances w)
    then mark_dropped <$> objs w !! l
    else objs w !! l.
Proof.
  rewrite dropEnqueued_unfold. case_bool_decide as Hin.
  - apply objs_foldl_assign_in; [apply mark_dropped_idem | done].
  - by apply objs_foldl_assign_notin.
Qed.

Lemma task_dropEnqueued w : task (dropEnqueued w) = task w.
Proof. rewrite dropEnqueued_unfold. by apply task_foldl_assign. Qed.

Lemma task_cancelFirstRunning w : task (cancelFirstRunning w) = task w.
Proof.
  rewrite cancelFirstRunning_unfold. by destruct (head (_activeInstances w)).
Qed.

Lemma shape_dropEnqueued w : shape_inv w -> shape_inv (dropEnqueued w).
Proof.
  intros Hs. split.
  - rewrite task_dropEnqueued. apply Hs.
  - intros l Hl. rewrite task_dropEnqueued in Hl.
    destruct (shape_alloc w Hs l Hl) as [i Hi].
    rewrite objs_dropEnqueued, Hi. by case_bool_decide.
  - intros l i'. rewrite objs_dropEnqueued. case_bool_decide as Hin.
    + apply view_lookup in Hin as (_ & i & Hi & Henq). rewrite Hi. simpl.
      intros [= <-]. apply flags_mark_dropped; [done|].
      by eapply shape_flags.
    + by apply shape_flags.
Qed.

(** An instance that is neither running nor enqueued is not the one
    [cancelFirstRunning] cancels, and not one [dropEnqueued] drops. *)
Lemma cancelFirstRunning_inactive w l i :
  objs w !! l = Some i -> isRunning i = false -> isEnqueued i = false ->
  objs (cancelFirstRunning w) !! l = Some i.
Proof.
  intros Hi Hrun Henq. rewrite cancelFirstRunning_unfold.
  destruct (head (_activeInstances w)) as [l0|] eqn:Hhead; [|done].
  apply head_active_elem in Hhead as [_ Hact].
  rewrite objs_assign_ne; [done|]. intros ->.
  unfold read_field in Hact. rewrite Hi in Hact. simpl in Hact.
  by rewrite Hrun, Henq in Hact.
Qed.

Lemma dropEnqueued_not_enqueued w l i :
  objs w !! l = Some i -> isEnqueued i = false ->
  objs (dropEnqueued w) !! l = Some i.
Proof.
  intros Hi Henq. rewrite objs_dropEnqueued. case_bool_decide as Hin; [|done].
  apply view_lookup in Hin as (_ & i' & Hi' & Henq').
  simplify_eq. cbn in Henq'. congruence.
Qed.

(** Marking the new instance, which is still pending. *)
Lemma shape_mark_new l f w :
  shape_inv w ->
  objs w !! l = Some new_instance ->
  (flags_set (f new_instance) <= 1)%nat ->
  shape_inv (assign l f w).
Proof.
  intros Hs Hl Hf. apply shape_assign; [done|].
  intros i Hi. by simplify_eq.
Qed.

Lemma shape_admission l w :
  shape_inv w -> objs w !! l = Some new_instance -> shape_inv (admission l w).
Proof.
  intros Hs Hl. unfold admission.
  repeat match goal with |- context [if ?b then _ else _] => destruct b end;
    apply shape_mark_new;
    auto using shape_cancelFirstRunning, shape_dropEnqueued,
      cancelFirstRunning_inactive, dropEnqueued_not_enqueued;
    cbv; lia.
Qed.

Lemma shape_step w w' : shape_inv w -> step w w' -> shape_inv w'.
Proof.
  intros Hs Hstep.
  destruct Hstep as [w l Hfresh|w l v Hin Hrun|w l e Hin Hrun|w l Hin
                    |w l Hbelow Hhead].
  - apply shape_admission; [by apply shape_push|]. apply lookup_insert_eq.
  - apply shape_assign; [done|]. intros i Hi.
    apply flags_mark_successful; [|by eapply shape_flags].
    apply read_field_lookup in Hrun as (i' & Hi' & Hrun). by simplify_eq.
  - apply shape_assign; [done|]. intros i Hi.
    apply flags_mark_error; [|by eapply shape_flags].
    apply read_field_lookup in Hrun as (i' & Hi' & Hrun). by simplify_eq.
  - by apply shape_cancel.
  - apply shape_assign; [done|]. intros i Hi.
    apply flags_mark_running_enqueued; [|by eapply shape_flags].
    rewrite js_index_0 in Hhead. apply head_Some_elem_of in Hhead.
    apply view_lookup in Hhead as (_ & i' & Hi' & Henq). by simplify_eq.
Qed.

Lemma shape_reachable w0 w : shape_inv w0 -> reachable w0 w -> shape_inv w.
Proof.
  intros Hs Hreach. induction Hreach as [|w1 w2 w3 Hstep _ IH]; [done|].
  apply IH. by eapply shape_step.
Qed.
End Shape.

(* ===================================================================== *)
(** * The ceiling is an invariant of the engine                          *)
(* ===================================================================== *)

Section Ceiling.
Implicit Types (w : World) (l : loc) (f : TaskInstance -> TaskInstance).

Lemma reached_iff w :
  reachedMaxConcurrency w = true
  <-> number_le (_maxConcurrency (task w)) (js_length (_runningInstances w)).
Proof.
  unfold reachedMaxConcurrency, js_geq, number_le.
  destruct (_maxConcurrency (task w)) as [z|]; [|done].
  apply Z.leb_le.
Qed.

Lemma ceiling_shrink w w' :
  _maxConcurrency (task w') = _maxConcurrency (task w) ->
  (length (_runningInstances w') <= length (_runningInstances w))%nat ->
  within_ceiling w -> within_ceiling w'.
Proof.
  unfold within_ceiling, js_length. intros -> Hle.
  destruct (_maxConcurrency (task w)); [lia | done].
Qed.

Lemma ceiling_grow w w' :
  _maxConcurrency (task w') = _maxConcurrency (task w) ->
  length (_runningInstances w') = S (length (_runningInstances w)) ->
  reachedMaxConcurrency w = false ->
  within_ceiling w'.
Proof.
  unfold within_ceiling, reachedMaxConcurrency, js_geq, js_length.
  intros -> ->. destruct (_maxConcurrency (task w)) as [z|]; [|done].
  intros Hlt%Z.leb_gt. lia.
Qed.

Lemma inv_new_task m d e r k :
  well_configured (task (new_task m d e r k)) ->
  engine_inv (new_task m d e r k).
Proof.
  intros (_ & Hmax & _). split; [apply shape_new_task| |done].
  unfold within_ceiling. simpl in *. destruct m as [z|]; [|done].
  specialize (Hmax z eq_refl). unfold js_length. simpl. lia.
Qed.

(** Rewriting one object: the shape is kept as in [shape_assign]; the
    ceiling and the backlog are the two things left to show. *)
Lemma inv_assign l f w :
  engine_inv w ->
  (forall i, objs w !! l = Some i -> (flags_set (f i) <= 1)%nat) ->
  within_ceiling (assign l f w) ->
  (_isEnqueuing (task w) = false -> _isKeepingLatest (task w) = false ->
   _enqueuedInstances (assign l f w) = []) ->
  engine_inv (assign l f w).
Proof.
  intros [Hs _ _] Hf Hceil Hback. split; [by apply shape_assign|done|done].
Qed.

(** An object is rewritten without becoming running or enqueued: no more
    running instances than before, nothing new enqueued. *)
Lemma inv_leave_running l f w :
  engine_inv w ->
  l ∈ _instances (task w) ->
  (forall i, objs w !! l = Some i -> (flags_set (f i) <= 1)%nat) ->
  (forall i, objs w !! l = Some i ->
             isRunning (f i) = true -> isRunning i = true) ->
  (forall i, objs w !! l = Some i ->
             isEnqueued (f i) = true -> isEnqueued i = true) ->
  engine_inv (assign l f w).
Proof.
  intros Hinv Hin Hf Hrun Henq.
  pose proof (inv_shape w Hinv) as Hs.
  apply inv_assign; try done.
  - destruct (shape_alloc w Hs l Hin) as [i Hi].
    apply (ceiling_shrink w); [done| |apply Hinv].
    pose proof (view_length_assign KisRunning l f w i
                  (shape_nodup w Hs) Hin Hi) as Hlen.
    unfold _runningInstances. cbn [get_field] in Hlen.
    specialize (Hrun i Hi).
    destruct (isRunning (f i)), (isRunning i); cbn [Nat.b2n] in Hlen; lia.
  - intros He Hk. apply view_nil_assign; [apply Henq|].
    by apply (inv_backlog w Hinv).
Qed.

(** An instance that was not running starts to run below the ceiling. *)
Lemma inv_start_running l w i :
  engine_inv w ->
  l ∈ _instances (task w) ->
  objs w !! l = Some i ->
  isRunning i = false ->
  (flags_set (mark_running i) <= 1)%nat ->
  reachedMaxConcurrency w = false ->
  engine_inv (assign l mark_running w).
Proof.
  intros Hinv Hin Hi Hnot Hflags Hbelow.
  pose proof (inv_shape w Hinv) as Hs.
  apply inv_assign; try done.
  - intros i' Hi'. by simplify_eq.
  - apply (ceiling_grow w); [done| |done].
    pose proof (view_length_assign KisRunning l mark_running w i
                  (shape_nodup w Hs) Hin Hi) as Hlen.
    unfold _runningInstances. cbn [get_field mark_running isRunning] in Hlen.
    rewrite Hnot in Hlen. cbn [Nat.b2n] in Hlen. lia.
  - intros He Hk. apply view_nil_assign; [done|].
    by apply (inv_backlog w Hinv).
Qed.

Lemma inv_push l w :
  engine_inv w -> objs w !! l = None -> engine_inv (push_instance l w).
Proof.
  intros [Hs Hceil Hback] Hfresh. split.
  - by apply shape_push.
  - unfold within_ceiling, _runningInstances in *. by rewrite view_push.
  - unfold _enqueuedInstances in *. rewrite view_push by done. apply Hback.
Qed.

Lemma cancel_not_running i : isRunning (cancel i) = true -> isRunning i = true.
Proof. destruct i as [[] [] ? ? ? ? ? ? ?]; cbv; done. Qed.

Lemma cancel_not_enqueued i :
  isEnqueued (cancel i) = true -> isEnqueued i = true.
Proof. destruct i as [[] [] ? ? ? ? ? ? ?]; cbv; done. Qed.

Lemma inv_cancel l w :
  engine_inv w -> l ∈ _instances (task w) -> engine_inv (assign l cancel w).
Proof.
  intros Hinv Hin. apply inv_leave_running; try done.
  - intros i Hi. apply flags_cancel. by eapply shape_flags, Hi; apply Hinv.
  - intros i _. apply cancel_not_running.
  - intros i _. apply cancel_not_enqueued.
Qed.

Lemma inv_cancelFirstRunning w :
  engine_inv w -> engine_inv (cancelFirstRunning w).
Proof.
  intros Hinv. rewrite cancelFirstRunning_unfold.
  destruct (head (_activeInstances w)) as [l|] eqn:Hhead; [|done].
  apply inv_cancel; [done|]. by apply head_active_elem in Hhead as [? _].
Qed.

(** With nothing enqueued and something running, the eviction frees one
    running slot. *)
Lemma cancelFirstRunning_frees_slot w :
  shape_inv w ->
  _enqueuedInstances w = [] ->
  _runningInstances w ≠ [] ->
  S (length (_runningInstances (cancelFirstRunning w)))
  = length (_runningInstances w).
Proof.
  intros Hs Hnone Hsome. rewrite cancelFirstRunning_unfold.
  rewrite active_is_running by done.
  destruct (head (_runningInstances w)) as [l|] eqn:Hhead;
    [|by apply head_None in Hhead].
  apply head_Some_elem_of in Hhead.
  apply view_lookup in Hhead as (Hin & i & Hi & Hrun).
  pose proof (view_length_assign KisRunning l cancel w i
                (shape_nodup w Hs) Hin Hi) as Hlen.
  unfold _runningInstances. cbn [get_field] in Hlen, Hrun.
  rewrite (cancel_running i Hrun), Hrun in Hlen.
  cbn [Nat.b2n isRunning] in Hlen. lia.
Qed.

(** Dropping the backlog leaves the running instances running and
    nothing enqueued. *)
Lemma running_dropEnqueued w :
  _runningInstances (dropEnqueued w) = _runningInstances w.
Proof.
  unfold _runningInstances.
  rewrite !filteredInstances_unfold, task_dropEnqueued.
  apply filter_ext_elem_of. intros l _. unfold read_field.
  rewrite objs_dropEnqueued. case_bool_decide; [|done].
  by destruct (objs w !! l).
Qed.

Lemma enqueued_dropEnqueued w : _enqueuedInstances (dropEnqueued w) = [].
Proof.
  unfold _enqueuedInstances at 1.
  rewrite filteredInstances_unfold, task_dropEnqueued.
  apply filter_nil_iff. intros l Hl. unfold read_field.
  rewrite objs_dropEnqueued. case_bool_decide as Hin.
  - by destruct (objs w !! l).
  - destruct (read_field KisEnqueued (objs w) l) eqn:Hread; [|done].
    exfalso. apply Hin. unfold _enqueuedInstances.
    rewrite filteredInstances_unfold. by apply elem_of_filter.
Qed.

Lemma inv_dropEnqueued w : engine_inv w -> engine_inv (dropEnqueued w).
Proof.
  intros Hinv. split.
  - apply shape_dropEnqueued, Hinv.
  - unfold within_ceiling. rewrite task_dropEnqueued, running_dropEnqueued.
    apply Hinv.
  - intros _ _. apply enqueued_dropEnqueued.
Qed.
End Ceiling.

Section Reachability.
Implicit Types (w : World) (l : loc).

Lemma task_admission l w : task (admission l w) = task w.
Proof.
  unfold admission.
  repeat match goal with |- context [if ?b then _ else _] => destruct b end;
    by rewrite task_assign, ?task_cancelFirstRunning, ?task_dropEnqueued.
Qed.

(** The steps of the engine change the instances, never the
    configuration. *)
Lemma step_same_config w w' : step w w' -> same_config (task w) (task w').
Proof.
  intros Hstep. destruct Hstep; unfold perform;
    rewrite ?task_admission, ?task_assign; by repeat split.
Qed.

Lemma reachable_same_config w0 w :
  reachable w0 w -> same_config (task w0) (task w).
Proof.
  intros Hreach. induction Hreach as [w|w1 w2 w3 Hstep _ IH].
  - by repeat split.
  - apply step_same_config in Hstep. unfold same_config in *.
    destruct Hstep as (? & ? & ? & ? & ?), IH as (? & ? & ? & ? & ?).
    repeat split; congruence.
Qed.

Lemma well_configured_same t t' :
  same_config t t' -> well_configured t -> well_configured t'.
Proof.
  unfold well_configured, policy_flags.
  by intros (-> & -> & -> & -> & ->).
Qed.

(** Admission keeps the ceiling. *)
Lemma inv_admission l w :
  well_configured (task w) ->
  engine_inv w ->
  l ∈ _instances (task w) ->
  objs w !! l = Some new_instance ->
  engine_inv (admission l w).
Proof.
  intros (Hone & Hmax & Hnone) Hinv Hin Hl. unfold admission.
  destruct (reachedMaxConcurrency w) eqn:Hreached;
    [|by eapply inv_start_running; eauto; cbv; lia].
  destruct (_isDropping (task w)) eqn:Hd.
  { apply inv_leave_running; try done; intros i Hi; simplify_eq; done
      || (cbv; lia). }
  destruct (_isEnqueuing (task w)) eqn:He.
  { apply inv_assign; try done.
    - intros i Hi. simplify_eq. cbv; lia.
    - apply (ceiling_shrink w); [done| |apply Hinv].
      unfold _runningInstances. by rewrite view_assign_same.
    - rewrite He. done. }
  unfold policy_flags in Hone, Hnone. rewrite Hd, He in Hone, Hnone.
  destruct (_isRestartable (task w)) eqn:Hr.
  { assert (Hk : _isKeepingLatest (task w) = false).
    { destruct (_isKeepingLatest (task w)); simpl in Hone; [lia | done]. }
    pose proof (inv_backlog w Hinv He Hk) as Hback.
    pose proof (inv_ceiling w Hinv) as Hceil.
    apply reached_iff in Hreached.
    unfold within_ceiling in Hceil. unfold number_le in Hreached.
    destruct (_maxConcurrency (task w)) as [z|] eqn:Hz; [|done].
    specialize (Hmax z eq_refl). unfold js_length in *.
    assert (Hsome : _runningInstances w ≠ []).
    { intros Hnil. rewrite Hnil in Hreached. simpl in Hreached. lia. }
    pose proof (cancelFirstRunning_frees_slot w (inv_shape w Hinv) Hback Hsome)
      as Hfree.
    eapply inv_start_running.
    - by apply inv_cancelFirstRunning.
    - by rewrite task_cancelFirstRunning.
    - by apply cancelFirstRunning_inactive.
    - done.
    - cbv; lia.
    - unfold reachedMaxConcurrency, js_geq, js_length.
      rewrite task_cancelFirstRunning, Hz. apply Z.leb_gt. lia. }
  destruct (_isKeepingLatest (task w)) eqn:Hk.
  { apply inv_assign.
    - by apply inv_dropEnqueued.
    - intros i. rewrite (dropEnqueued_not_enqueued w l new_instance) by done.
      intros [= <-]. cbv; lia.
    - apply (ceiling_shrink (dropEnqueued w));
        [done| |apply inv_dropEnqueued, Hinv].
      unfold _runningInstances. by rewrite view_assign_same.
    - rewrite task_dropEnqueued, Hk. done. }
  simpl in Hnone. specialize (Hnone eq_refl).
  unfold reachedMaxConcurrency in Hreached. by rewrite Hnone in Hreached.
Qed.

Lemma inv_step w w' :
  well_configured (task w) -> engine_inv w -> step w w' -> engine_inv w'.
Proof.
  intros Hcfg Hinv Hstep.
  pose proof (inv_shape w Hinv) as Hs.
  destruct Hstep as [w l Hfresh|w l v Hin Hrun|w l e Hin Hrun|w l Hin
                    |w l Hbelow Hhead].
  - apply inv_admission.
    + eapply well_configured_same; [|exact Hcfg]. by repeat split.
    + by apply inv_push.
    + simpl. apply elem_of_app. right. apply list_elem_of_here.
    + apply lookup_insert_eq.
  - apply read_field_lookup in Hrun as (i & Hi & Hrun).
    apply inv_leave_running; try done; intros i' Hi'; simplify_eq; try done.
    apply flags_mark_successful; [done | by eapply shape_flags].
  - apply read_field_lookup in Hrun as (i & Hi & Hrun).
    apply inv_leave_running; try done; intros i' Hi'; simplify_eq; try done.
    apply flags_mark_error; [done | by eapply shape_flags].
  - by apply inv_cancel.
  - rewrite js_index_0 in Hhead. apply head_Some_elem_of in Hhead.
    apply view_lookup in Hhead as (Hin & i & Hi & Henq).
    pose proof (shape_flags w Hs l i Hi) as Hflags.
    eapply inv_start_running; try done.
    + by apply (flags_one_only i KisEnqueued KisRunning).
    + by apply flags_mark_running_enqueued.
Qed.

Lemma inv_reachable w0 w :
  well_configured (task w0) -> engine_inv w0 -> reachable w0 w ->
  engine_inv w.
Proof.
  intros Hcfg Hinv Hreach.
  induction Hreach as [|w1 w2 w3 Hstep _ IH]; [done|].
  apply IH.
  - eapply well_configured_same; [by apply step_same_config|done].
  - by eapply inv_step.
Qed.

(** Under the Restartable policy nothing is ever enqueued. *)
Lemma restartable_never_enqueues m w :
  well_configured (task (new_task m false false true false)) ->
  reachable (new_task m false false true false) w ->
  _enqueuedInstances w = [].
Proof.
  intros Hcfg Hreach.
  pose proof (inv_reachable _ _ Hcfg (inv_new_task _ _ _ _ _ Hcfg) Hreach)
    as Hinv.
  destruct (reachable_same_config _ _ Hreach) as (_ & _ & He & _ & Hk).
  by apply (inv_backlog w Hinv).
Qed.
End Reachability.

(** C1.  For every task configured as the data model says: at most one
    policy flag, a ceiling of at least 1, and no ceiling for a task without
    a policy.  In every world such a task reaches by [perform]s,
    completions, cancellations and promotions, the running instances are no
    more than [maxConcurrency]; and in any world whatever, of any task, the
    admission check [reachedMaxConcurrency] returns true exactly when the
    length of the running-instance sequence is at least [maxConcurrency].
    A task without a policy and with a finite ceiling is left out: the
    engine enforces no ceiling on it. *)
Theorem running_within_maxConcurrency
    (m : number) (d e r k : bool) (w : World) :
  well_configured (task (new_task m d e r k)) ->
  reachable (new_task m d e r k) w ->
  within_ceiling w
  /\ (forall w',
        reachedMaxConcurrency w' = true
        <-> number_le (_maxConcurrency (task w'))
              (js_length (_runningInstances w'))).
Proof.
  intros Hcfg Hreach. split; [|apply reached_iff].
  apply inv_ceiling.
  eapply inv_reachable; [exact Hcfg | by apply inv_new_task | exact Hreach].
Qed.

Lemma running_within_maxConcurrency_witness :
  within_ceiling
    (perform 1%nat (perform 0%nat (new_task (Int 1) false true false false)))
  /\ (forall w',
        reachedMaxConcurrency w' = true
        <-> number_le (_maxConcurrency (task w'))
              (js_length (_runningInstances w'))).
Proof.
  apply (running_within_maxConcurrency (Int 1) false true false false).
  - unfold well_configured, policy_flags. simpl. repeat split.
    + lia.
    + intros z [= <-]. lia.
    + discriminate.
  - eapply rtc_l; [by apply (step_perform _ 0%nat)|].
    eapply rtc_l; [by apply (step_perform _ 1%nat)|].
    apply rtc_refl.
Defined.

(** The claim of C1 fails for a task without a policy.  The task with
    [maxConcurrency] 1 and no policy flag reaches, by two [perform]s, a
    world in which two instances are running: the admission check returns
    true at the second [perform], and the instance runs all the same. *)
Lemma running_exceeds_maxConcurrency_without_policy :
  let w0 := new_task (Int 1) false false false false in
  let w := perform 1%nat (perform 0%nat w0) in
  reachable w0 w
  /\ _maxConcurrency (task w) = Int 1
  /\ reachedMaxConcurrency (push_instance 1%nat (perform 0%nat w0)) = true
  /\ _runningInstances w = [0%nat; 1%nat]
  /\ ~ within_ceiling w.
Proof.
  intros w0 w. split; [|split; [|split; [|split]]].
  - eapply rtc_l; [by apply (step_perform _ 0%nat)|].
    eapply rtc_l; [by apply (step_perform _ 1%nat)|].
    apply rtc_refl.
  - reflexivity.
  - reflexivity.
  - reflexivity.
  - unfold within_ceiling.
    replace (_runningInstances w) with [0%nat; 1%nat] by reflexivity.
    replace (_maxConcurrency (task w)) with (Int 1) by reflexivity.
    unfold js_length. simpl. lia.
Qed.

Section Agreement.
Implicit Types (i : TaskInstance) (st : Status.t).


End Agreement.




(* ===================================================================== *)
(** * Deferred promises: the first call decides                          *)
(* ===================================================================== *)

Section Deferred.
Implicit Types (rt : Runtime) (p q : ploc) (c : Call) (s : PromiseState).

Lemma defer_unfold rt :
  let p := fresh (dom (promises rt)) in
  defer rt
  = (mkDeferredObject p (promise_resolve p) (promise_reject p),
     set_cell p (mkPromiseCell Pending [] [] false) rt).
Proof. reflexivity. Qed.





(** Settling a pending promise gives it the state and empties its handler
    lists; the flag of its resolving functions stays. *)
Lemma settle_cell p s cell rt :
  promises rt !! p = Some cell -> pstate cell = Pending ->
  promises (settle p s rt) !! p
  = Some (mkPromiseCell s [] [] (alreadyResolved cell)).
Proof.
  intros Hcell Hst. unfold settle. rewrite Hcell, Hst. simpl.
  by rewrite lookup_insert_eq.
Qed.

(** Settling a promise touches the cell of no other promise. *)
Lemma settle_elsewhere p q s rt :
  p ≠ q -> promises (settle p s rt) !! q = promises rt !! q.
Proof.
  intros Hne. unfold settle.
  destruct (promises rt !! p) as [cell|]; [|done].
  destruct (pstate cell); try done. simpl. by rewrite lookup_insert_ne.
Qed.

(** A settled promise stays as it is. *)
Lemma settle_settled p s cell rt :
  promises rt !! p = Some cell -> pstate cell ≠ Pending -> settle p s rt = rt.
Proof.
  intros Hcell Hst. unfold settle. rewrite Hcell. by destruct (pstate cell).
Qed.


(** A call of a resolving function changes the cell of no other promise. *)
Lemma promise_call_elsewhere p q c rt :
  p ≠ q -> promises (promise_call p c rt) !! q = promises rt !! q.
Proof.
  intros Hne.
  assert (Hlock : forall cell,
            promises (set_cell p (lock cell) rt) !! q = promises rt !! q).
  { intros cell. simpl. by rewrite lookup_insert_ne. }
  destruct c as [v|r]; simpl; unfold promise_resolve, promise_reject;
    destruct (promises rt !! p) as [cell|]; try done;
    destruct (alreadyResolved cell); try done.
  - unfold resolve_promise.
    destruct v as [| | |q'|];
      try (rewrite settle_elsewhere by done; apply Hlock).
    destruct (Nat.eqb q' p);
      [rewrite settle_elsewhere by done; apply Hlock | apply Hlock].
  - rewrite settle_elsewhere by done. apply Hlock.
Qed.

(** The first call on a promise nothing has been called on yet: it sets
    the flag, and the promise takes the state the call asks for, except
    when [resolve] is given a promise. *)
Lemma promise_call_first p c cell rt :
  promises rt !! p = Some cell ->
  alreadyResolved cell = false -> pstate cell = Pending ->
  exists cell',
    promises (promise_call p c rt) !! p = Some cell'
    /\ alreadyResolved cell' = true
    /\ match c with
       | CallReject reason => pstate cell' = Rejected reason
       | CallResolve (VPromise q) =>
           if Nat.eqb q p then pstate cell' = Rejected self_resolution_error
           else pstate cell' = Pending
                /\ jobs (promise_call p c rt)
                   = jobs rt ++ [(ResolveThenable p, VPromise q)]
       | CallResolve v => pstate cell' = Fulfilled v
       end.
Proof.
  intros Hcell Hflag Hst.
  assert (Hlocked : promises (set_cell p (lock cell) rt) !! p
                    = Some (lock cell)).
  { simpl. by rewrite lookup_insert_eq. }
  assert (Hsettle : forall s,
            promises (settle p s (set_cell p (lock cell) rt)) !! p
            = Some (mkPromiseCell s [] [] true)).
  { intros s. by rewrite (settle_cell p s (lock cell)). }
  destruct c as [v|r]; simpl; unfold promise_resolve, promise_reject;
    rewrite Hcell, Hflag.
  - unfold resolve_promise.
    destruct v as [| | |q|]; try (eexists; split; [apply Hsettle|done]).
    destruct (Nat.eqb q p) eqn:Hq.
    + eexists. split; [apply Hsettle|done].
    + exists (lock cell). split; [done|]. by repeat split.
  - eexists. split; [apply Hsettle|done].
Qed.

End Deferred.


(* ===================================================================== *)
(** * The cancel token follows the rejection of the signal's promise     *)
(* ===================================================================== *)

Section Counting.
Implicit Types (c : tloc) (p : ploc) (h : Handler) (hs : list Handler)
  (js : list (Handler * JsValue)) (P : Handler -> bool).

Lemma waiting_app P hs hs' :
  waiting P (hs ++ hs') = (waiting P hs + waiting P hs')%nat.
Proof. unfold waiting. by rewrite List.filter_app, length_app. Qed.

Lemma queued_app P js js' :
  queued P (js ++ js') = (queued P js + queued P js')%nat.
Proof. unfold queued. by rewrite List.filter_app, length_app. Qed.

Lemma waiting_one P h : waiting P [h] = Nat.b2n (P h).
Proof. unfold waiting. simpl. by destruct (P h). Qed.

Lemma queued_cons P h (r : JsValue) js :
  queued P ((h, r) :: js) = (Nat.b2n (P h) + queued P js)%nat.
Proof. unfold queued. simpl. by destruct (P h). Qed.

Lemma queued_one P h (r : JsValue) : queued P [(h, r)] = Nat.b2n (P h).
Proof. rewrite queued_cons. unfold queued. simpl. lia. Qed.

Lemma waiting_cons P h hs :
  waiting P (h :: hs) = (Nat.b2n (P h) + waiting P hs)%nat.
Proof. unfold waiting. simpl. by destruct (P h). Qed.

Lemma queued_fmap P (r : JsValue) hs :
  queued P ((fun h => (h, r)) <$> hs) = waiting P hs.
Proof.
  induction hs as [|h hs IH]; [done|].
  by rewrite fmap_cons, queued_cons, waiting_cons, IH.
Qed.

Lemma queued_reactions P (s : PromiseState) (cell : PromiseCell) :
  queued P (reactions_of s cell)
  = match s with
    | Pending => 0%nat
    | Fulfilled _ => waiting P (onFulfilled cell)
    | Rejected _ => waiting P (onRejected cell)
    end.
Proof. destruct s; simpl; [done|apply queued_fmap..]. Qed.

Lemma queued_none P js :
  queued P js = 0%nat -> Forall (fun j => P j.1 = false) js.
Proof.
  induction js as [|[h r] js IH]; [by constructor|].
  rewrite queued_cons. intros Hq. constructor.
  - simpl. destruct (P h); [simpl in Hq; lia | done].
  - apply IH. lia.
Qed.

Lemma waiting_none P hs :
  waiting P hs = 0%nat -> Forall (fun h => P h = false) hs.
Proof.
  induction hs as [|h hs IH]; [by constructor|].
  rewrite waiting_cons. intros Hw. constructor.
  - destruct (P h); [simpl in Hw; lia | done].
  - apply IH. lia.
Qed.

Lemma cancelling_cons c h r js :
  cancelling c ((h, r) :: js)
  = (Nat.b2n (handles c h && strict_eq r cancel_marker) + cancelling c js)%nat.
Proof.
  unfold cancelling. simpl.
  by destruct (handles c h && strict_eq r cancel_marker).
Qed.

Lemma cancelling_le c js : (cancelling c js <= queued (handles c) js)%nat.
Proof.
  induction js as [|[h r] js IH]; [done|].
  rewrite cancelling_cons, queued_cons.
  destruct (handles c h), (strict_eq r cancel_marker); simpl; lia.
Qed.

(** When every job of the token carries the same reason, its jobs cancel
    all or none. *)
Lemma cancelling_uniform c (r : JsValue) js :
  Forall (fun j => handles c j.1 = true -> j.2 = r) js ->
  cancelling c js
  = if strict_eq r cancel_marker then queued (handles c) js else 0%nat.
Proof.
  induction 1 as [|[h r'] js Hhead _ IH].
  - by destruct (strict_eq r cancel_marker).
  - rewrite cancelling_cons, queued_cons, IH. simpl in Hhead.
    destruct (handles c h); simpl.
    + rewrite (Hhead eq_refl). by destruct (strict_eq r cancel_marker).
    + done.
Qed.

Lemma handles_own c : handles c (CancelIfMarker c) = true.
Proof. simpl. by apply bool_decide_eq_true. Qed.

Lemma handles_other c c' : c' ≠ c -> handles c (CancelIfMarker c') = false.
Proof. intros Hne. simpl. by apply bool_decide_eq_false. Qed.

Lemma handles_inv c h : handles c h = true -> h = CancelIfMarker c.
Proof.
  destruct h as [c'| | |]; simpl; try done.
  by intros ->%bool_decide_eq_true.
Qed.

(** The reason test of the handler passes for the marker and for nothing
    else. *)
Lemma is_marker (r : JsValue) :
  strict_eq r cancel_marker = true <-> r = cancel_marker.
Proof.
  unfold cancel_marker. split.
  - destruct r as [| |s| |]; cbn [strict_eq]; try done.
    by intros ->%String.eqb_eq.
  - by intros ->.
Qed.

Lemma cancel_calls_invoke c c' rt :
  is_Some (tokens rt !! c) ->
  cancel_calls c (invoke_cancel c' rt)
  = (Nat.b2n (bool_decide (c' = c)) + cancel_calls c rt)%nat.
Proof.
  intros [n Hn]. unfold cancel_calls, invoke_cancel. simpl.
  case_bool_decide as Heq.
  - subst c'. by rewrite lookup_alter_eq, Hn.
  - by rewrite lookup_alter_ne.
Qed.
End Counting.

Section Quiet.
Implicit Types (rt : Runtime) (p q : ploc) (h : Handler) (s : PromiseState)
  (js : list (Handler * JsValue)).

Lemma quiet_id : quiet (fun rt => rt).
Proof. by intros rt. Qed.

Lemma quiet_compose (f g : Runtime -> Runtime) :
  quiet f -> quiet g -> quiet (fun rt => g (f rt)).
Proof.
  intros Hf Hg rt.
  destruct (Hf rt) as (Hfs & Hft & Hfa & Hfp).
  destruct (Hg (f rt)) as (Hgs & Hgt & Hga & Hgp).
  repeat split.
  - by rewrite Hgs.
  - by rewrite Hgt.
  - intros x Hx. by apply Hga, Hfa.
  - intros js. by rewrite Hfp, Hgp.
Qed.

Lemma quiet_set_cell p cell : quiet (set_cell p cell).
Proof.
  intros rt. split; [done|split; [done|split; [|done]]].
  intros x [cell' Hx]. simpl.
  destruct (decide (p = x)) as [<-|Hne].
  - rewrite lookup_insert_eq. by eexists.
  - rewrite lookup_insert_ne by done. by eexists.
Qed.

Lemma quiet_enqueue js : quiet (enqueue js).
Proof.
  intros rt. split; [done|split; [done|split; [done|]]].
  intros js'. unfold enqueue, prepend, set_jobs. simpl.
  by rewrite app_assoc.
Qed.

Lemma settle_prepend p s js rt :
  settle p s (prepend js rt) = prepend js (settle p s rt).
Proof.
  unfold settle. simpl.
  destruct (promises rt !! p) as [cell|]; [|done].
  destruct (pstate cell); try done.
  unfold enqueue, prepend, set_cell, set_promises, set_jobs. simpl.
  by rewrite app_assoc.
Qed.

Lemma quiet_settle p s : quiet (settle p s).
Proof.
  intros rt. split; [|split; [|split]].
  - unfold settle. destruct (promises rt !! p) as [cell|]; [|done].
    by destruct (pstate cell).
  - unfold settle. destruct (promises rt !! p) as [cell|]; [|done].
    by destruct (pstate cell).
  - intros x Hx. unfold settle.
    destruct (promises rt !! p) as [cell|]; [|done].
    destruct (pstate cell); try done.
    by apply (quiet_enqueue _ _), (quiet_set_cell _ _ _).
  - intros js. apply settle_prepend.
Qed.
(** An operation that looks at the promises and then does something quiet
    is quiet. *)
Lemma quiet_reading (F : gmap ploc PromiseCell -> Runtime -> Runtime) :
  (forall m, quiet (F m)) -> quiet (fun rt => F (promises rt) rt).
Proof.
  intros HF rt. destruct (HF (promises rt) rt) as (Hs & Ht & Ha & Hp).
  split; [done|split; [done|split; [done|]]].
  intros js. exact (Hp js).
Qed.

Lemma quiet_resolve_promise p v : quiet (resolve_promise p v).
Proof.
  unfold resolve_promise. destruct v as [| | |q|]; try apply quiet_settle.
  destruct (Nat.eqb q p); [apply quiet_settle | apply quiet_enqueue].
Qed.

Lemma quiet_promise_resolve p v : quiet (promise_resolve p v).
Proof.
  apply (quiet_reading (fun m rt =>
    match m !! p with
    | Some cell =>
        if alreadyResolved cell then rt
        else resolve_promise p v (set_cell p (lock cell) rt)
    | None => rt
    end)).
  intros m. destruct (m !! p) as [cell|]; [|apply quiet_id].
  destruct (alreadyResolved cell); [apply quiet_id|].
  apply (quiet_compose (set_cell p (lock cell)) (resolve_promise p v));
    [apply quiet_set_cell | apply quiet_resolve_promise].
Qed.

Lemma quiet_promise_reject p r : quiet (promise_reject p r).
Proof.
  apply (quiet_reading (fun m rt =>
    match m !! p with
    | Some cell =>
        if alreadyResolved cell then rt
        else settle p (Rejected r) (set_cell p (lock cell) rt)
    | None => rt
    end)).
  intros m. destruct (m !! p) as [cell|]; [|apply quiet_id].
  destruct (alreadyResolved cell); [apply quiet_id|].
  apply (quiet_compose (set_cell p (lock cell)) (settle p (Rejected r)));
    [apply quiet_set_cell | apply quiet_settle].
Qed.

Lemma quiet_promise_call p (c : Call) : quiet (promise_call p c).
Proof.
  destruct c; [apply quiet_promise_resolve | apply quiet_promise_reject].
Qed.

Lemma quiet_promise_then q hf hr : quiet (promise_then q hf hr).
Proof.
  apply (quiet_reading (fun m rt =>
    match m !! q with
    | Some cell =>
        match pstate cell with
        | Pending =>
            set_cell q
              (mkPromiseCell Pending (onFulfilled cell ++ [hf])
                 (onRejected cell ++ [hr]) (alreadyResolved cell))
              rt
        | Fulfilled v => enqueue [(hf, v)] rt
        | Rejected reason => enqueue [(hr, reason)] rt
        end
    | None => rt
    end)).
  intros m. destruct (m !! q) as [cell|]; [|apply quiet_id].
  destruct (pstate cell);
    [apply quiet_set_cell | apply quiet_enqueue | apply quiet_enqueue].
Qed.

Lemma quiet_promise_catch p h : quiet (promise_catch p h).
Proof.
  apply (quiet_reading (fun m rt =>
    match m !! p with
    | Some cell =>
        match pstate cell with
        | Pending =>
            set_cell p
              (mkPromiseCell Pending (onFulfilled cell) (onRejected cell ++ [h])
                 (alreadyResolved cell))
              rt
        | Rejected reason => enqueue [(h, reason)] rt
        | Fulfilled _ => rt
        end
    | None => rt
    end)).
  intros m. destruct (m !! p) as [cell|]; [|apply quiet_id].
  destruct (pstate cell);
    [apply quiet_set_cell | apply quiet_id | apply quiet_enqueue].
Qed.

Lemma run_handler_signals h (v : JsValue) rt :
  signals (run_handler h v rt) = signals rt.
Proof.
  destruct h as [c|p|p|p].
  - simpl. by destruct (strict_eq v cancel_marker).
  - simpl. destruct v as [| | |q|]; try done. apply quiet_promise_then.
  - apply (quiet_resolve_promise p v).
  - apply (quiet_settle p (Rejected v)).
Qed.

Lemma run_handler_alive h (v : JsValue) rt x :
  is_Some (promises rt !! x) -> is_Some (promises (run_handler h v rt) !! x).
Proof.
  destruct h as [c|p|p|p].
  - simpl. by destruct (strict_eq v cancel_marker).
  - simpl. destruct v as [| | |q|]; try done. apply quiet_promise_then.
  - apply (quiet_resolve_promise p v).
  - apply (quiet_settle p (Rejected v)).
Qed.

Lemma run_handler_prepend h (v : JsValue) js rt :
  run_handler h v (prepend js rt) = prepend js (run_handler h v rt).
Proof.
  destruct h as [c|p|p|p].
  - simpl. by destruct (strict_eq v cancel_marker).
  - simpl. destruct v as [| | |q|]; try done. apply quiet_promise_then.
  - apply (quiet_resolve_promise p v).
  - apply (quiet_settle p (Rejected v)).
Qed.

(** Running a handler invokes [cancel] of token [c] once when it is the
    token's handler and the reason is the marker, and not at all
    otherwise. *)
Lemma run_handler_calls c h (v : JsValue) rt :
  is_Some (tokens rt !! c) ->
  is_Some (tokens (run_handler h v rt) !! c)
  /\ cancel_calls c (run_handler h v rt)
     = (Nat.b2n (handles c h && strict_eq v cancel_marker)
        + cancel_calls c rt)%nat.
Proof.
  intros Htok.
  assert (Hquiet : forall f : Runtime -> Runtime, quiet f ->
            is_Some (tokens (f rt) !! c)
            /\ cancel_calls c (f rt) = (0 + cancel_calls c rt)%nat).
  { intros f Hf. destruct (Hf rt) as (_ & Ht & _). unfold cancel_calls.
    by rewrite Ht. }
  destruct h as [c'|p|p|p]; cbn [handles andb Nat.b2n].
  - simpl. destruct (strict_eq v cancel_marker).
    + split; [by apply lookup_alter_is_Some|].
      rewrite cancel_calls_invoke by done. by rewrite andb_true_r.
    + by rewrite andb_false_r.
  - simpl. destruct v as [| | |q|]; try done. apply Hquiet, quiet_promise_then.
  - apply Hquiet, quiet_resolve_promise.
  - apply (Hquiet (settle p (Rejected v))), quiet_settle.
Qed.
End Quiet.

Section RuntimeInvariant.
Implicit Types (rt : Runtime) (c : tloc) (s : sloc) (p q : ploc) (h : Handler)
  (js : list (Handler * JsValue)) (P : Handler -> bool).

Lemma nowhere_set_cell P p cell rt :
  nowhere P rt -> clean P cell -> nowhere P (set_cell p cell rt).
Proof.
  intros [Hc Hq] Hcl. split; [|done]. intros p' cell'. simpl.
  destruct (decide (p = p')) as [<-|Hne].
  - rewrite lookup_insert_eq. by intros [= <-].
  - rewrite lookup_insert_ne by done. apply Hc.
Qed.

Lemma nowhere_enqueue P js rt :
  nowhere P rt -> queued P js = 0%nat -> nowhere P (enqueue js rt).
Proof.
  intros [Hc Hq] Hjs. split; [done|]. simpl. rewrite queued_app. lia.
Qed.

(** A settlement moves handlers from the promise to the queue; it brings
    in none. *)
Lemma nowhere_settle P p (st : PromiseState) rt :
  nowhere P rt -> nowhere P (settle p st rt).
Proof.
  intros Hn. unfold settle.
  destruct (promises rt !! p) as [cell|] eqn:Hcell; [|done].
  destruct (pstate cell); try done.
  apply nowhere_enqueue; [by apply nowhere_set_cell|].
  rewrite queued_reactions. destruct Hn as [Hc _].
  destruct (Hc p cell Hcell) as [Hf Hr]. by destruct st.
Qed.

Lemma nowhere_resolve_promise P p (v : JsValue) rt :
  nowhere P rt -> P (ResolveThenable p) = false ->
  nowhere P (resolve_promise p v rt).
Proof.
  intros Hn HP. unfold resolve_promise.
  destruct v as [| | |q|]; try by apply nowhere_settle.
  destruct (Nat.eqb q p); [by apply nowhere_settle|].
  apply nowhere_enqueue; [done|]. by rewrite queued_one, HP.
Qed.

Lemma nowhere_promise_resolve P p (v : JsValue) rt :
  nowhere P rt -> P (ResolveThenable p) = false ->
  nowhere P (promise_resolve p v rt).
Proof.
  intros Hn HP. unfold promise_resolve.
  destruct (promises rt !! p) as [cell|] eqn:Hcell; [|done].
  destruct (alreadyResolved cell); [done|].
  apply nowhere_resolve_promise; [|done].
  apply nowhere_set_cell; [done|]. by apply (proj1 Hn p cell).
Qed.

Lemma nowhere_promise_reject P p (r : JsValue) rt :
  nowhere P rt -> nowhere P (promise_reject p r rt).
Proof.
  intros Hn. unfold promise_reject.
  destruct (promises rt !! p) as [cell|] eqn:Hcell; [|done].
  destruct (alreadyResolved cell); [done|].
  apply nowhere_settle, nowhere_set_cell; [done|].
  by apply (proj1 Hn p cell).
Qed.

Lemma nowhere_promise_call P p (call : Call) rt :
  nowhere P rt -> P (ResolveThenable p) = false ->
  nowhere P (promise_call p call rt).
Proof.
  intros Hn HP. destruct call as [v|r]; simpl.
  - by apply nowhere_promise_resolve.
  - by apply nowhere_promise_reject.
Qed.

Lemma nowhere_promise_then P q hf hr rt :
  nowhere P rt -> P hf = false -> P hr = false ->
  nowhere P (promise_then q hf hr rt).
Proof.
  intros Hn Hf Hr. unfold promise_then.
  destruct (promises rt !! q) as [cell|] eqn:Hcell; [|done].
  destruct (proj1 Hn q cell Hcell) as [Hcf Hcr].
  destruct (pstate cell).
  - apply nowhere_set_cell; [done|]. split; simpl.
    + by rewrite waiting_app, waiting_one, Hcf, Hf.
    + by rewrite waiting_app, waiting_one, Hcr, Hr.
  - apply nowhere_enqueue; [done|]. by rewrite queued_one, Hf.
  - apply nowhere_enqueue; [done|]. by rewrite queued_one, Hr.
Qed.

Lemma nowhere_promise_catch P p h rt :
  nowhere P rt -> P h = false -> nowhere P (promise_catch p h rt).
Proof.
  intros Hn Hh. unfold promise_catch.
  destruct (promises rt !! p) as [cell|] eqn:Hcell; [|done].
  destruct (proj1 Hn p cell Hcell) as [Hcf Hcr].
  destruct (pstate cell); [|done|].
  - apply nowhere_set_cell; [done|]. split; simpl; [done|].
    by rewrite waiting_app, waiting_one, Hcr, Hh.
  - apply nowhere_enqueue; [done|]. by rewrite queued_one, Hh.
Qed.

(** Running a handler brings in handlers for the promise it works for, and
    no others. *)
Lemma nowhere_run_handler P h (v : JsValue) rt :
  nowhere P rt ->
  (forall p, h = ResolveThenable p \/ h = AdoptFulfil p ->
             P (ResolveThenable p) = false /\ P (AdoptFulfil p) = false
             /\ P (AdoptReject p) = false) ->
  nowhere P (run_handler h v rt).
Proof.
  intros Hn HP. destruct h as [c'|p|p|p]; simpl.
  - by destruct (strict_eq v cancel_marker).
  - destruct (HP p (or_introl eq_refl)) as (_ & Hf & Hr).
    destruct v as [| | |q|]; try done. by apply nowhere_promise_then.
  - destruct (HP p (or_intror eq_refl)) as (Hres & _ & _).
    by apply nowhere_resolve_promise.
  - by apply nowhere_settle.
Qed.

Lemma nowhere_run_handler_token c h (v : JsValue) rt :
  nowhere (handles c) rt -> nowhere (handles c) (run_handler h v rt).
Proof. intros Hn. by apply nowhere_run_handler. Qed.

Lemma nowhere_run_handler_target p h (v : JsValue) rt :
  nowhere (targets p) rt -> targets p h = false ->
  nowhere (targets p) (run_handler h v rt).
Proof.
  intros Hn Hh. apply nowhere_run_handler; [done|].
  by intros p' [-> | ->].
Qed.

Lemma nowhere_pop P h (v : JsValue) js rt :
  nowhere P rt -> jobs rt = (h, v) :: js ->
  P h = false /\ nowhere P (set_jobs js rt).
Proof.
  intros [Hc Hq] Hjobs. rewrite Hjobs, queued_cons in Hq.
  split; [destruct (P h); [simpl in Hq; lia | done]|].
  split; [done|]. simpl. lia.
Qed.

(** A call of a resolving function brings in no handler for a promise
    that does not exist. *)
Lemma nowhere_call_target p p' (call : Call) rt :
  p' ≠ p \/ promises rt !! p = None ->
  nowhere (targets p) rt -> nowhere (targets p) (promise_call p' call rt).
Proof.
  intros Hp Hn. destruct (decide (p' = p)) as [->|Hne].
  - destruct Hp as [Hp|Hp]; [done|].
    destruct call; simpl; unfold promise_resolve, promise_reject;
      by rewrite Hp.
  - apply nowhere_promise_call; [done|]. simpl.
    by apply bool_decide_eq_false.
Qed.

Lemma rinv_empty : runtime_inv empty_runtime.
Proof.
  split; simpl.
  - intros s sg Hs. by rewrite lookup_empty in Hs.
  - intros c _. split; [|done]. intros p cell Hp. simpl in Hp.
    by rewrite lookup_empty in Hp.
  - intros p _. split; [|done]. intros p' cell Hp. simpl in Hp.
    by rewrite lookup_empty in Hp.
Qed.

(** A quiet operation that brings in no handler of a token that does not
    exist, and none for a promise that does not exist, keeps the
    invariant. *)
Lemma rinv_quiet (f : Runtime -> Runtime) rt :
  quiet f ->
  (forall c, tokens rt !! c = None ->
             nowhere (handles c) rt -> nowhere (handles c) (f rt)) ->
  (forall p, promises rt !! p = None ->
             nowhere (targets p) rt -> nowhere (targets p) (f rt)) ->
  runtime_inv rt -> runtime_inv (f rt).
Proof.
  intros Hf Hn Hm [Hsig Hnow Htar]. destruct (Hf rt) as (Hs & Ht & Ha & _).
  split.
  - intros s sg. rewrite Hs. intros Hsg. by eapply Ha, Hsig.
  - intros c. rewrite Ht. intros Hc. by apply Hn, Hnow.
  - intros p Hp.
    assert (Hold : promises rt !! p = None).
    { destruct (promises rt !! p) as [cell|] eqn:Hcell; [|done].
      destruct (Ha p (mk_is_Some _ _ Hcell)) as [cell' Hcell'].
      congruence. }
    by apply Hm, Htar.
Qed.

Lemma rinv_new_token c rt :
  runtime_inv rt ->
  runtime_inv (set_tokens (<[c := 0%nat]> (tokens rt)) rt).
Proof.
  intros [Hsig Hnow Htar]. split; simpl; [done| |done].
  intros c' [Hc' _]%lookup_insert_None. by apply Hnow.
Qed.

Lemma rinv_getCancelToken s rt :
  runtime_inv rt -> runtime_inv (getCancelToken axios s rt).2.
Proof.
  intros Hinv. unfold getCancelToken, axios. simpl.
  set (c := fresh (dom (tokens rt))).
  destruct (signal_pr s _) as [p|]; [|by apply rinv_new_token].
  apply (rinv_quiet (promise_catch p (CancelIfMarker c)));
    [apply quiet_promise_catch | | | by apply rinv_new_token].
  - intros c' Hc' Hn. apply nowhere_promise_catch; [done|].
    apply handles_other. intros ->. simpl in Hc'.
    by rewrite lookup_insert_eq in Hc'.
  - intros p' _ Hn. by apply nowhere_promise_catch.
Qed.

(** A new promise on which nothing waits. *)
Lemma rinv_alloc rt :
  runtime_inv rt ->
  runtime_inv
    (set_cell (fresh (dom (promises rt))) (mkPromiseCell Pending [] [] false)
       rt).
Proof.
  intros Hinv.
  apply (rinv_quiet (set_cell _ _)); [apply quiet_set_cell| | |done].
  - intros c _ Hn. by apply nowhere_set_cell.
  - intros p _ Hn. by apply nowhere_set_cell.
Qed.

Lemma rinv_new_signal rt : runtime_inv rt -> runtime_inv (new_signal rt).2.
Proof.
  intros Hinv. apply rinv_alloc in Hinv. destruct Hinv as [Hsig Hnow Htar].
  unfold new_signal. cbn [snd].
  set (p := fresh (dom (promises rt))) in *.
  set (s := fresh (dom (signals rt))).
  split; [|done|done]. intros s' sg. cbn [signals set_signals promises].
  destruct (decide (s = s')) as [<-|Hne].
  - rewrite lookup_insert_eq. intros [= <-]. simpl.
    rewrite lookup_insert_eq. by eexists.
  - rewrite lookup_insert_ne by done. apply Hsig.
Qed.

Lemma rinv_promise_call p (c : Call) rt :
  runtime_inv rt -> runtime_inv (promise_call p c rt).
Proof.
  apply (rinv_quiet (promise_call p c)); [apply quiet_promise_call| |].
  - intros c' _ Hn. by apply nowhere_promise_call.
  - intros p' Hp' Hn. apply nowhere_call_target; [by right | done].
Qed.

Lemma rinv_signal_cancel s rt :
  runtime_inv rt -> runtime_inv (signal_cancel s rt).
Proof.
  intros Hinv. unfold signal_cancel.
  destruct (signals rt !! s) as [sg|] eqn:Hs; [|done].
  destruct (AbortSignal.isCanceled sg); [done|].
  apply (rinv_promise_call _ (CallReject cancel_marker)).
  destruct Hinv as [Hsig Hnow Htar]. split; [|done|done].
  intros s' sg'. cbn [signals set_signals promises].
  destruct (decide (s = s')) as [<-|Hne].
  - rewrite lookup_insert_eq. intros [= <-]. simpl. by eapply Hsig.
  - rewrite lookup_insert_ne by done. apply Hsig.
Qed.

Lemma rinv_run_handler h reason js rt :
  runtime_inv rt -> jobs rt = (h, reason) :: js ->
  runtime_inv (run_handler h reason (set_jobs js rt)).
Proof.
  intros [Hsig Hnow Htar] Hjobs. split.
  - intros s sg. rewrite run_handler_signals. intros Hs.
    apply run_handler_alive. by eapply Hsig.
  - intros c Hc. apply nowhere_run_handler_token.
    eapply nowhere_pop; [|done]. apply Hnow.
    destruct (tokens rt !! c) as [n|] eqn:Htok; [|done].
    destruct (run_handler_calls c h reason (set_jobs js rt)) as [[m Hm] _];
      [by exists n|]. congruence.
  - intros p Hp.
    assert (Hold : promises rt !! p = None).
    { destruct (promises rt !! p) as [cell|] eqn:Hcell; [|done].
      destruct (run_handler_alive h reason (set_jobs js rt) p
                  (mk_is_Some _ _ Hcell)) as [cell' Hcell'].
      congruence. }
    destruct (nowhere_pop _ h reason js rt (Htar p Hold) Hjobs) as [Hh Hn].
    by apply nowhere_run_handler_target.
Qed.

Lemma rinv_step rt rt' : runtime_inv rt -> rt_step rt rt' -> runtime_inv rt'.
Proof.
  intros Hinv Hstep. destruct Hstep.
  - by apply rinv_new_signal.
  - by apply rinv_signal_cancel.
  - by apply rinv_getCancelToken.
  - by apply rinv_run_handler.
  - rewrite defer_unfold. by apply rinv_alloc.
  - by apply rinv_promise_call.
Qed.

Lemma rinv_rtc rt0 rt :
  runtime_inv rt0 -> rt_reachable rt0 rt -> runtime_inv rt.
Proof.
  intros Hinv Hreach. induction Hreach as [|rt1 rt2 rt3 Hstep _ IH]; [done|].
  apply IH. by eapply rinv_step.
Qed.

Lemma rinv_reachable rt : rt_reachable empty_runtime rt -> runtime_inv rt.
Proof. apply rinv_rtc, rinv_empty. Qed.
End RuntimeInvariant.

Section TokenInvariant.
Implicit Types (rt : Runtime) (c : tloc) (s : sloc) (p q : ploc) (h : Handler)
  (js : list (Handler * JsValue)).

(** Jobs that do not belong to the token say nothing about its promise. *)
Lemma jobs_of_others c p rt js :
  queued (handles c) js = 0%nat ->
  Forall
    (fun j => handles c j.1 = true -> promise_state p rt = Some (Rejected j.2))
    js.
Proof.
  intros Hq. eapply Forall_impl; [by apply queued_none|].
  intros j Hj Hh. simpl in Hj. congruence.
Qed.

(** Replacing the cell of a promise by one with as many handlers of the
    token, and, on the token's promise, the same state. *)
Lemma tinv_set_cell c p p' cell cell' rt :
  token_inv c p rt -> promises rt !! p' = Some cell ->
  (p' = p -> pstate cell' = pstate cell) ->
  waiting (handles c) (onFulfilled cell')
  = waiting (handles c) (onFulfilled cell) ->
  waiting (handles c) (onRejected cell')
  = waiting (handles c) (onRejected cell) ->
  token_inv c p (set_cell p' cell' rt).
Proof.
  intros [Htok Hful Helse Hjobs (cell0 & Hcell0 & Hbal)] Hcell Hst Hwf Hwr.
  assert (Hstate : promise_state p (set_cell p' cell' rt) = promise_state p rt).
  { unfold promise_state. simpl. destruct (decide (p' = p)) as [->|Hne].
    - rewrite lookup_insert_eq, Hcell. simpl. by rewrite Hst.
    - by rewrite lookup_insert_ne. }
  split.
  - done.
  - intros p0 cell1. simpl. destruct (decide (p' = p0)) as [<-|Hne].
    + rewrite lookup_insert_eq. intros [= <-]. rewrite Hwf. by eapply Hful.
    + rewrite lookup_insert_ne by done. apply Hful.
  - intros p0 cell1 Hp0. simpl. destruct (decide (p' = p0)) as [<-|Hne].
    + rewrite lookup_insert_eq. intros [= <-]. rewrite Hwr. by eapply Helse.
    + rewrite lookup_insert_ne by done. by apply Helse.
  - eapply Forall_impl; [exact Hjobs|]. intros j Hj Hh. rewrite Hstate.
    by apply Hj.
  - destruct (decide (p' = p)) as [->|Hne].
    + exists cell'. split; [simpl; by rewrite lookup_insert_eq|].
      assert (cell0 = cell) as -> by congruence.
      rewrite Hst, Hwr by done. exact Hbal.
    + exists cell0. split; [simpl; by rewrite lookup_insert_ne|]. exact Hbal.
Qed.

(** A new promise on which no handler of the token waits. *)
Lemma tinv_alloc c p p' cell' rt :
  token_inv c p rt -> promises rt !! p' = None -> clean (handles c) cell' ->
  token_inv c p (set_cell p' cell' rt).
Proof.
  intros [Htok Hful Helse Hjobs (cell0 & Hcell0 & Hbal)] Hnew [Hcf Hcr].
  assert (Hne : p' ≠ p) by congruence.
  split.
  - done.
  - intros p0 cell1. simpl. destruct (decide (p' = p0)) as [<-|Hne0].
    + rewrite lookup_insert_eq. by intros [= <-].
    + rewrite lookup_insert_ne by done. apply Hful.
  - intros p0 cell1 Hp0. simpl. destruct (decide (p' = p0)) as [<-|Hne0].
    + rewrite lookup_insert_eq. by intros [= <-].
    + rewrite lookup_insert_ne by done. by apply Helse.
  - eapply Forall_impl; [exact Hjobs|]. intros j Hj Hh.
    unfold promise_state. simpl. rewrite lookup_insert_ne by done.
    by apply Hj.
  - exists cell0. split; [simpl; by rewrite lookup_insert_ne|]. exact Hbal.
Qed.

(** Queueing jobs that are not the token's. *)
Lemma tinv_enqueue c p js rt :
  token_inv c p rt -> queued (handles c) js = 0%nat ->
  token_inv c p (enqueue js rt).
Proof.
  intros [Htok Hful Helse Hjobs (cell0 & Hcell0 & Hbal)] Hjs.
  split; try done.
  - apply Forall_app. split; [exact Hjobs | by apply jobs_of_others].
  - exists cell0. split; [done|].
    change (jobs (enqueue js rt)) with (jobs rt ++ js).
    rewrite queued_app, Hjs, Nat.add_0_r. exact Hbal.
Qed.

(** Settling a promise: on the token's own promise the waiting handler
    becomes a job that carries the reason, or is discarded by a fulfilment;
    on any other promise nothing of the token is involved. *)
Lemma tinv_settle c p p' (st : PromiseState) rt :
  token_inv c p rt -> st ≠ Pending -> token_inv c p (settle p' st rt).
Proof.
  intros Hinv Hst. unfold settle.
  destruct (promises rt !! p') as [cell'|] eqn:Hcell'; [|done].
  destruct (pstate cell') eqn:Hst'; try done.
  destruct (decide (p' = p)) as [->|Hne].
  - destruct Hinv as [Htok Hful Helse Hjobs (cell0 & Hcell0 & Hbal)].
    assert (cell0 = cell') as -> by congruence.
    rewrite Hst' in Hbal. destruct Hbal as (Hw & Hq & Hn).
    pose proof (Hful p cell' Hcell') as Hwf.
    assert (Hstate : forall js,
              promise_state p
                (enqueue js
                   (set_cell p (mkPromiseCell st [] [] (alreadyResolved cell'))
                      rt))
              = Some st).
    { intros js. unfold promise_state. simpl. by rewrite lookup_insert_eq. }
    split.
    + done.
    + intros p0 cell1. simpl. destruct (decide (p = p0)) as [<-|Hne0].
      * rewrite lookup_insert_eq. by intros [= <-].
      * rewrite lookup_insert_ne by done. apply Hful.
    + intros p0 cell1 Hp0. simpl. rewrite lookup_insert_ne by done.
      by apply Helse.
    + apply Forall_app. split; [by apply jobs_of_others|].
      destruct st as [|v|r]; [done| |].
      * apply jobs_of_others. by rewrite queued_reactions.
      * apply Forall_fmap, Forall_forall. intros h _ _. apply Hstate.
    + eexists. split; [simpl; by rewrite lookup_insert_eq|].
      cbn [pstate onRejected].
      change (jobs (enqueue ?js ?rt0)) with (jobs rt ++ js).
      rewrite queued_app, queued_reactions, Hq.
      change (cancel_calls c (enqueue ?js ?rt0)) with (cancel_calls c rt).
      rewrite Hn. destruct st as [|v|r]; [done|by rewrite Hwf|].
      rewrite Hw. simpl. split; [done|].
      destruct (strict_eq r cancel_marker); [done | split; [lia|done]].
  - apply tinv_enqueue.
    + apply (tinv_set_cell c p p' cell'); [done|done|done| |].
      * symmetry. by eapply (tinv_fulfil c p rt).
      * symmetry. by eapply (tinv_elsewhere c p rt).
    + rewrite queued_reactions. destruct st; [done|..].
      * by eapply (tinv_fulfil c p rt).
      * by eapply (tinv_elsewhere c p rt).
Qed.

Lemma tinv_resolve_promise c p p' (v : JsValue) rt :
  token_inv c p rt -> token_inv c p (resolve_promise p' v rt).
Proof.
  intros Hinv. unfold resolve_promise.
  destruct v as [| | |q|]; try by apply tinv_settle.
  destruct (Nat.eqb q p'); [by apply tinv_settle | by apply tinv_enqueue].
Qed.

Lemma tinv_promise_call c p p' (call : Call) rt :
  token_inv c p rt -> token_inv c p (promise_call p' call rt).
Proof.
  intros Hinv.
  destruct call as [v|r]; simpl; unfold promise_resolve, promise_reject;
    destruct (promises rt !! p') as [cell|] eqn:Hcell; try done;
    destruct (alreadyResolved cell); try done.
  - by apply tinv_resolve_promise, (tinv_set_cell c p p' cell).
  - apply tinv_settle; [|done]. by apply (tinv_set_cell c p p' cell).
Qed.

Lemma tinv_promise_then c p q hf hr rt :
  token_inv c p rt -> handles c hf = false -> handles c hr = false ->
  token_inv c p (promise_then q hf hr rt).
Proof.
  intros Hinv Hf Hr. unfold promise_then.
  destruct (promises rt !! q) as [cell|] eqn:Hcell; [|done].
  destruct (pstate cell) eqn:Hst.
  - apply (tinv_set_cell c p q cell); simpl; try done.
    + by rewrite waiting_app, waiting_one, Hf, Nat.add_0_r.
    + by rewrite waiting_app, waiting_one, Hr, Nat.add_0_r.
  - apply tinv_enqueue; [done|]. by rewrite queued_one, Hf.
  - apply tinv_enqueue; [done|]. by rewrite queued_one, Hr.
Qed.

Lemma tinv_promise_catch c p p' h rt :
  token_inv c p rt -> handles c h = false ->
  token_inv c p (promise_catch p' h rt).
Proof.
  intros Hinv Hh. unfold promise_catch.
  destruct (promises rt !! p') as [cell|] eqn:Hcell; [|done].
  destruct (pstate cell) eqn:Hst; [|done|].
  - apply (tinv_set_cell c p p' cell); simpl; try done.
    by rewrite waiting_app, waiting_one, Hh, Nat.add_0_r.
  - apply tinv_enqueue; [done|]. by rewrite queued_one, Hh.
Qed.

Lemma tinv_set_signals c p ss rt :
  token_inv c p rt -> token_inv c p (set_signals ss rt).
Proof. intros [Htok Hful Helse Hjobs Hbal]. by split. Qed.

Lemma tinv_new_token c' c p rt :
  token_inv c p rt -> c' ≠ c ->
  token_inv c p (set_tokens (<[c' := 0%nat]> (tokens rt)) rt).
Proof.
  intros [Htok Hful Helse Hjobs Hbal] Hne.
  split; simpl; [|done|done|done|].
  - by rewrite lookup_insert_ne.
  - unfold cancel_calls in *. simpl. by rewrite lookup_insert_ne.
Qed.

(** Right after the request the token's handler waits on the signal's
    promise when that is pending; on a rejected promise its job is queued
    with the reason; on a fulfilled promise nothing is registered. *)
Lemma tinv_init s sg rt :
  runtime_inv rt ->
  signals rt !! s = Some sg ->
  token_inv (getCancelToken axios s rt).1 (AbortSignal.pr sg)
    (getCancelToken axios s rt).2.
Proof.
  intros [Hsig Hnow] Hs.
  unfold getCancelToken, axios. simpl.
  set (c := fresh (dom (tokens rt))).
  assert (Hc : tokens rt !! c = None) by apply not_elem_of_dom, is_fresh.
  destruct (Hnow c Hc) as [Hclean Hqueue].
  assert (Hpr : forall ts, signal_pr s (set_tokens ts rt)
                           = Some (AbortSignal.pr sg)).
  { intros ts. unfold signal_pr. simpl. by rewrite Hs. }
  rewrite Hpr. destruct (Hsig s sg Hs) as [cell Hcell].
  destruct (Hclean _ cell Hcell) as [Hcf Hcr].
  unfold promise_catch. simpl. rewrite Hcell.
  destruct (pstate cell) as [|v|r] eqn:Hst.
  - split; simpl.
    + by rewrite lookup_insert_eq.
    + intros p' cell'. destruct (decide (AbortSignal.pr sg = p')) as [<-|Hne].
      * rewrite lookup_insert_eq. by intros [= <-].
      * rewrite lookup_insert_ne by done. intros Hp'. by eapply Hclean.
    + intros p' cell' Hne. rewrite lookup_insert_ne by done.
      intros Hp'. by eapply Hclean.
    + by apply jobs_of_others.
    + eexists. split; [by rewrite lookup_insert_eq|]. simpl.
      unfold cancel_calls. simpl. rewrite lookup_insert_eq. simpl.
      by rewrite waiting_app, waiting_one, handles_own, Hcr, Hqueue.
  - split; simpl.
    + by rewrite lookup_insert_eq.
    + intros p' cell' Hp'. by eapply Hclean.
    + intros p' cell' _ Hp'. by eapply Hclean.
    + by apply jobs_of_others.
    + exists cell. split; [done|]. rewrite Hst. simpl.
      unfold cancel_calls. simpl. by rewrite lookup_insert_eq.
  - split; simpl.
    + by rewrite lookup_insert_eq.
    + intros p' cell' Hp'. by eapply Hclean.
    + intros p' cell' _ Hp'. by eapply Hclean.
    + apply Forall_app. split; [by apply jobs_of_others|].
      constructor; [|done]. intros _. unfold promise_state. simpl.
      rewrite Hcell. simpl. by rewrite Hst.
    + exists cell. split; [done|]. rewrite Hst. simpl.
      unfold cancel_calls. simpl. rewrite lookup_insert_eq. simpl.
      rewrite queued_app, queued_one, handles_own, Hqueue. simpl.
      split; [done|]. destruct (strict_eq r cancel_marker); [done|].
      split; [lia|done].
Qed.

Lemma tinv_getCancelToken c p s' rt :
  token_inv c p rt -> token_inv c p (getCancelToken axios s' rt).2.
Proof.
  intros Hinv. unfold getCancelToken, axios. simpl.
  set (c' := fresh (dom (tokens rt))).
  assert (Hne : c' ≠ c).
  { intros Heq. destruct (tinv_token c p rt Hinv) as [n Hn].
    assert (Hc' : tokens rt !! c' = None) by apply not_elem_of_dom, is_fresh.
    congruence. }
  destruct (signal_pr s' _) as [p'|]; [|by apply tinv_new_token].
  apply tinv_promise_catch; [by apply tinv_new_token | by apply handles_other].
Qed.

Lemma tinv_fresh_promise c p rt :
  token_inv c p rt ->
  token_inv c p
    (set_cell (fresh (dom (promises rt))) (mkPromiseCell Pending [] [] false)
       rt).
Proof.
  intros Hinv. apply tinv_alloc; [done| |done].
  apply not_elem_of_dom, is_fresh.
Qed.

Lemma tinv_new_signal c p rt :
  token_inv c p rt -> token_inv c p (new_signal rt).2.
Proof.
  intros Hinv. unfold new_signal. cbn [snd].
  by apply tinv_set_signals, tinv_fresh_promise.
Qed.

Lemma tinv_signal_cancel c p s' rt :
  token_inv c p rt -> token_inv c p (signal_cancel s' rt).
Proof.
  intros Hinv. unfold signal_cancel.
  destruct (signals rt !! s') as [sg'|]; [|done].
  destruct (AbortSignal.isCanceled sg'); [done|].
  apply (tinv_promise_call c p _ (CallReject cancel_marker)).
  by apply tinv_set_signals.
Qed.

(** Running the oldest job.  A job of the token carries the reason its
    promise was rejected with: with the marker the job turns into the
    invocation of [cancel], with another reason it goes away. *)
Lemma tinv_run_handler h reason js c p rt :
  token_inv c p rt -> jobs rt = (h, reason) :: js ->
  token_inv c p (run_handler h reason (set_jobs js rt)).
Proof.
  intros [Htok Hful Helse Hjobs (cell & Hcell & Hbal)] Hjobs_eq.
  rewrite Hjobs_eq in Hjobs, Hbal.
  apply Forall_cons in Hjobs as [Hhead Hjobs]. simpl in Hhead.
  rewrite queued_cons in Hbal.
  destruct (handles c h) eqn:Hh.
  - apply handles_inv in Hh as ->. specialize (Hhead eq_refl).
    unfold promise_state in Hhead. rewrite Hcell in Hhead.
    injection Hhead as Hst. rewrite Hst in Hbal. destruct Hbal as [Hw Hbal].
    cbn [run_handler].
    destruct (strict_eq reason cancel_marker) eqn:Hmark.
    + split; [by apply lookup_alter_is_Some|done|done|done|].
      exists cell. split; [done|]. rewrite Hst. simpl. rewrite Hmark.
      change (cancel_calls c (invoke_cancel c (set_jobs js rt)))
        with (cancel_calls c (invoke_cancel c rt)).
      rewrite cancel_calls_invoke by done.
      rewrite bool_decide_eq_true_2 by done. simpl in *. split; [done|lia].
    + split; [done..|].
      exists cell. split; [done|]. rewrite Hst. simpl. rewrite Hmark.
      simpl in Hbal. split; [done|].
      change (cancel_calls c (set_jobs js rt)) with (cancel_calls c rt). lia.
  - assert (Hpop : token_inv c p (set_jobs js rt)).
    { split; try done. exists cell. split; [done|]. exact Hbal. }
    destruct h as [c'|p'|p'|p']; cbn [run_handler].
    + destruct (strict_eq reason cancel_marker); [|done].
      assert (Hne : c' ≠ c).
      { intros ->. by rewrite handles_own in Hh. }
      destruct Hpop as [Htok' Hful' Helse' Hjobs' (cell' & Hcell' & Hbal')].
      split; [by apply lookup_alter_is_Some|done|done|done|].
      exists cell'. split; [done|].
      change (cancel_calls c (invoke_cancel c' (set_jobs js rt)))
        with (cancel_calls c (invoke_cancel c' rt)).
      rewrite cancel_calls_invoke by done.
      by rewrite bool_decide_eq_false_2 by done.
    + destruct reason as [| | |q|]; try done. by apply tinv_promise_then.
    + by apply tinv_resolve_promise.
    + by apply tinv_settle.
Qed.

Lemma tinv_step c p rt rt' :
  token_inv c p rt -> rt_step rt rt' -> token_inv c p rt'.
Proof.
  intros Hinv Hstep. destruct Hstep.
  - by apply tinv_new_signal.
  - by apply tinv_signal_cancel.
  - by apply tinv_getCancelToken.
  - by apply tinv_run_handler.
  - rewrite defer_unfold. by apply tinv_fresh_promise.
  - by apply tinv_promise_call.
Qed.

Lemma tinv_rtc c p rt rt' :
  token_inv c p rt -> rt_reachable rt rt' -> token_inv c p rt'.
Proof.
  intros Hinv Hreach.
  induction Hreach as [|rt1 rt2 rt3 Hstep _ IH]; [done|].
  apply IH. by eapply tinv_step.
Qed.
End TokenInvariant.

Section Draining.
Implicit Types (rt : Runtime) (c : tloc) (s : sloc) (p : ploc) (h : Handler)
  (js : list (Handler * JsValue)).

(** Running the jobs of a list one after the other. *)
Local Abbreviation run_list rt js :=
  (foldl (fun rt' (job : Handler * JsValue) => run_handler job.1 job.2 rt')
     rt js).

(** The jobs in front of the queue can be run one step at a time; what
    they queue is behind the jobs that were there. *)
Lemma run_list_reachable js rt :
  rt_reachable (prepend js rt) (run_list rt js).
Proof.
  revert rt. induction js as [|[h v] js IH]; intros rt.
  - destruct rt. apply rtc_refl.
  - eapply rtc_l.
    + by apply (rt_job _ h v (js ++ jobs rt)).
    + change (set_jobs (js ++ jobs rt) (prepend ((h, v) :: js) rt))
        with (prepend js rt).
      rewrite run_handler_prepend. cbn [foldl fst snd]. apply IH.
Qed.

Lemma run_jobs_reachable rt : rt_reachable rt (run_jobs rt).
Proof.
  pose proof (run_list_reachable (jobs rt) (set_jobs [] rt)) as Hrun.
  assert (Heq : prepend (jobs rt) (set_jobs [] rt) = rt).
  { destruct rt. unfold prepend. simpl. by rewrite app_nil_r. }
  by rewrite Heq in Hrun.
Qed.

Lemma run_list_calls c js rt :
  is_Some (tokens rt !! c) ->
  cancel_calls c (run_list rt js)
  = (cancelling c js + cancel_calls c rt)%nat.
Proof.
  revert rt. induction js as [|[h v] js IH]; intros rt Htok; [done|].
  cbn [foldl fst snd].
  destruct (run_handler_calls c h v rt Htok) as [Htok' Hcalls].
  rewrite IH by done. rewrite Hcalls, cancelling_cons. lia.
Qed.

(** After the jobs of the queue have run, [cancel] has been invoked once
    more for every job of the token that carried the marker. *)
Lemma run_jobs_calls c rt :
  is_Some (tokens rt !! c) ->
  cancel_calls c (run_jobs rt)
  = (cancelling c (jobs rt) + cancel_calls c rt)%nat.
Proof. intros Htok. unfold run_jobs. by rewrite run_list_calls. Qed.

(** What the token invariant says of the number of invocations, now and
    after the queued jobs have run. *)
Lemma tinv_account c p rt :
  token_inv c p rt ->
  (cancelling c (jobs rt) + cancel_calls c rt <= 1)%nat
  /\ ((cancelling c (jobs rt) + cancel_calls c rt = 1)%nat
      <-> rejected_with_marker p rt)
  /\ (~ rejected_with_marker p rt -> cancel_calls c rt = 0%nat)
  /\ (rejected_with_marker p rt -> jobs rt = [] -> cancel_calls c rt = 1%nat).
Proof.
  intros [_ _ _ Hjobs (cell & Hcell & Hbal)].
  pose proof (cancelling_le c (jobs rt)) as Hle.
  unfold rejected_with_marker, promise_state in *. rewrite Hcell in *.
  simpl in *. destruct (pstate cell) as [|v|r] eqn:Hst; simpl in Hbal.
  - destruct Hbal as (_ & Hq & Hn). rewrite Hn.
    repeat split; try done; try lia.
  - destruct Hbal as (_ & Hq & Hn). rewrite Hn.
    repeat split; try done; try lia.
  - destruct Hbal as [_ Hbal].
    assert (Huni : cancelling c (jobs rt)
                   = if strict_eq r cancel_marker
                     then queued (handles c) (jobs rt)
                     else 0%nat).
    { apply cancelling_uniform. eapply Forall_impl; [exact Hjobs|].
      intros j Hj Hh. specialize (Hj Hh). congruence. }
    rewrite Huni. destruct (strict_eq r cancel_marker) eqn:Hmark.
    + apply is_marker in Hmark as ->. repeat split; try done; try lia.
      intros _ Hnil. rewrite Hnil in Hbal. simpl in Hbal. lia.
    + destruct Hbal as [_ Hn]. rewrite Hn.
      assert (Hne : Some (Rejected r) ≠ Some (Rejected cancel_marker)).
      { intros [= ->]. by rewrite (proj2 (is_marker cancel_marker)) in Hmark. }
      repeat split; try done; try lia.
Qed.

(** The promise of a signal stays the same. *)
Lemma signal_pr_step s p rt rt' :
  rt_step rt rt' -> signal_pr s rt = Some p -> signal_pr s rt' = Some p.
Proof.
  intros Hstep. unfold signal_pr. destruct Hstep.
  - unfold new_signal. cbn [snd signals set_signals].
    intros Hs. rewrite lookup_insert_ne; [done|]. intros Heq.
    assert (Hfresh : signals (set_cell (fresh (dom (promises rt)))
                                (mkPromiseCell Pending [] [] false) rt)
                     !! fresh (dom (signals rt)) = None)
      by apply not_elem_of_dom, is_fresh.
    rewrite Heq in Hfresh. simpl in Hfresh, Hs. by rewrite Hfresh in Hs.
  - unfold signal_cancel.
    destruct (signals rt !! s0) as [sg|] eqn:Hs0; [|done].
    destruct (AbortSignal.isCanceled sg); [done|].
    rewrite (proj1 (quiet_promise_reject _ _ _)). cbn [signals set_signals].
    destruct (decide (s0 = s)) as [->|Hne].
    + rewrite lookup_insert_eq, Hs0. done.
    + by rewrite lookup_insert_ne.
  - unfold getCancelToken, axios. cbn [CancelToken snd].
    destruct (signal_pr s0 _); [|done].
    by rewrite (proj1 (quiet_promise_catch _ _ _)).
  - by rewrite run_handler_signals.
  - by rewrite defer_unfold.
  - by rewrite (proj1 (quiet_promise_call _ _ _)).
Qed.

Lemma signal_pr_rtc s p rt rt' :
  rt_reachable rt rt' -> signal_pr s rt = Some p -> signal_pr s rt' = Some p.
Proof.
  intros Hreach. induction Hreach as [|rt1 rt2 rt3 Hstep _ IH]; [done|].
  intros Hs. apply IH. by eapply signal_pr_step.
Qed.

End Draining.

Section Ownership.
Implicit Types (rt : Runtime) (c : tloc) (s : sloc) (p q : ploc) (h : Handler)
  (js : list (Handler * JsValue)).

(** What the discipline of a signal rests on: the state of its promise and
    the flag of its resolving functions. *)
Local Abbreviation core p rt :=
  ((fun cell => (pstate cell, alreadyResolved cell)) <$> promises rt !! p).

Lemma core_settle p p' (st : PromiseState) rt :
  p' ≠ p -> core p (settle p' st rt) = core p rt.
Proof. intros Hne. by rewrite settle_elsewhere. Qed.

Lemma core_resolve_promise p p' (v : JsValue) rt :
  p' ≠ p -> core p (resolve_promise p' v rt) = core p rt.
Proof.
  intros Hne. unfold resolve_promise.
  destruct v as [| | |q|]; try by apply core_settle.
  destruct (Nat.eqb q p'); [by apply core_settle | done].
Qed.

Lemma core_promise_call p p' (call : Call) rt :
  p' ≠ p -> core p (promise_call p' call rt) = core p rt.
Proof. intros Hne. by rewrite promise_call_elsewhere. Qed.

Lemma core_promise_then p q hf hr rt :
  core p (promise_then q hf hr rt) = core p rt.
Proof.
  unfold promise_then.
  destruct (promises rt !! q) as [cell|] eqn:Hcell; [|done].
  destruct (pstate cell) eqn:Hst; try done. simpl.
  destruct (decide (q = p)) as [->|Hne].
  - by rewrite lookup_insert_eq, Hcell, <- Hst.
  - by rewrite lookup_insert_ne.
Qed.

Lemma core_promise_catch p q h rt :
  core p (promise_catch q h rt) = core p rt.
Proof.
  unfold promise_catch.
  destruct (promises rt !! q) as [cell|] eqn:Hcell; [|done].
  destruct (pstate cell) eqn:Hst; try done. simpl.
  destruct (decide (q = p)) as [->|Hne].
  - by rewrite lookup_insert_eq, Hcell, <- Hst.
  - by rewrite lookup_insert_ne.
Qed.

Lemma core_run_handler p h (v : JsValue) rt :
  targets p h = false -> core p (run_handler h v rt) = core p rt.
Proof.
  intros Hh. destruct h as [c|p'|p'|p']; simpl in *.
  - by destruct (strict_eq v cancel_marker).
  - destruct v as [| | |q|]; try done. apply core_promise_then.
  - apply core_resolve_promise. by apply bool_decide_eq_false in Hh.
  - apply core_settle. by apply bool_decide_eq_false in Hh.
Qed.

(** The discipline, in terms of what it rests on. *)
Lemma disciplined_intro s p sg rt :
  signals rt !! s = Some sg -> AbortSignal.pr sg = p ->
  core p rt
  = Some (if AbortSignal.isCanceled sg then Rejected cancel_marker
          else Pending,
          if AbortSignal.isCanceled sg then true else false)
  \/ (AbortSignal.isCanceled sg = true
      /\ exists b, core p rt = Some (Rejected cancel_marker, b)) ->
  (forall s' sg',
     signals rt !! s' = Some sg' -> AbortSignal.pr sg' = p -> s' = s) ->
  nowhere (targets p) rt ->
  disciplined s p rt.
Proof.
  intros Hs Hpr Hcore Hown Hn. split; [|done|done].
  destruct (promises rt !! p) as [cell|] eqn:Hcell;
    [|by destruct Hcore as [Hcore|(_ & b & Hcore)]].
  exists sg, cell. split; [done|]. split; [done|]. split; [done|].
  destruct Hcore as [Hcore|(Hcan & b & Hcore)].
  - simpl in Hcore. injection Hcore as Hst Hflag.
    by destruct (AbortSignal.isCanceled sg).
  - rewrite Hcan. simpl in Hcore. by injection Hcore as Hst _.
Qed.

Lemma disciplined_core s p rt :
  disciplined s p rt ->
  exists sg b,
    signals rt !! s = Some sg /\ AbortSignal.pr sg = p
    /\ core p rt
       = Some (if AbortSignal.isCanceled sg then Rejected cancel_marker
               else Pending, b)
    /\ (AbortSignal.isCanceled sg = false -> b = false).
Proof.
  intros [(sg & cell & Hs & Hpr & Hcell & Hst) _ _].
  exists sg, (alreadyResolved cell). rewrite Hcell. simpl.
  split; [done|]. split; [done|].
  destruct (AbortSignal.isCanceled sg).
  - by rewrite Hst.
  - destruct Hst as [-> ->]. by split.
Qed.

(** A change that keeps the signals, what the discipline rests on, and
    brings in no handler for the promise, keeps the discipline. *)
Lemma disciplined_frame s p rt rt' :
  disciplined s p rt ->
  signals rt' = signals rt -> core p rt' = core p rt ->
  nowhere (targets p) rt' ->
  disciplined s p rt'.
Proof.
  intros Hd Hs Hcore Hn.
  destruct (disciplined_core s p rt Hd) as (sg & b & Hsg & Hpr & Hc & Hb).
  destruct Hd as [_ Hown _].
  apply (disciplined_intro s p sg); rewrite ?Hs; try done.
  rewrite Hcore, Hc. destruct (AbortSignal.isCanceled sg) eqn:Hcan.
  - right. split; [done|]. by exists b.
  - left. by rewrite Hb.
Qed.

Lemma disciplined_alloc s p rt :
  disciplined s p rt ->
  disciplined s p
    (set_cell (fresh (dom (promises rt))) (mkPromiseCell Pending [] [] false)
       rt).
Proof.
  intros Hd. apply (disciplined_frame s p rt); [done|done| |].
  - simpl. rewrite lookup_insert_ne; [done|]. intros Heq.
    destruct Hd as [(sg & cell & _ & _ & Hcell & _) _ _].
    assert (Hfresh : promises rt !! fresh (dom (promises rt)) = None)
      by apply not_elem_of_dom, is_fresh.
    rewrite Heq in Hfresh. congruence.
  - apply nowhere_set_cell; [apply Hd | done].
Qed.

(** A signal that has just been created is as [cancel()] and nobody else
    leaves it. *)
Lemma disciplined_new_signal rt :
  runtime_inv rt ->
  disciplined (new_signal rt).1 (fresh (dom (promises rt))) (new_signal rt).2.
Proof.
  intros [Hsig _ Htar]. unfold new_signal. cbn [fst snd].
  set (p := fresh (dom (promises rt))). set (s := fresh (dom (signals rt))).
  assert (Hp : promises rt !! p = None) by apply not_elem_of_dom, is_fresh.
  assert (Hs : signals rt !! s = None) by apply not_elem_of_dom, is_fresh.
  apply (disciplined_intro s p (AbortSignal.mk false p)).
  - simpl. by rewrite lookup_insert_eq.
  - done.
  - left. simpl. by rewrite lookup_insert_eq.
  - intros s' sg'. simpl. destruct (decide (s = s')) as [<-|Hne]; [done|].
    rewrite lookup_insert_ne by done. intros Hs' Hpr.
    destruct (Hsig s' sg' Hs') as [cell Hcell]. congruence.
  - apply (nowhere_set_cell _ p _ rt); [by apply Htar | done].
Qed.

Lemma disciplined_step s p rt rt' :
  disciplined s p rt -> owned_step p rt rt' -> disciplined s p rt'.
Proof.
  intros Hd Hstep.
  destruct (disciplined_core s p rt Hd) as (sg & b & Hsg & Hpr & Hc & Hb).
  destruct Hstep as [rt|rt s'|rt s' _|rt h v js Hjobs|rt|rt p' call Hne].
  - (* a signal is created *)
    apply disciplined_alloc in Hd.
    destruct (disciplined_core _ _ _ Hd) as (sg1 & b1 & Hsg1 & Hpr1 & Hc1 & Hb1).
    destruct Hd as [_ Hown Hn]. unfold new_signal. cbn [snd].
    assert (Hs' : signals rt !! fresh (dom (signals rt)) = None)
      by apply not_elem_of_dom, is_fresh.
    assert (Hne : fresh (dom (signals rt)) ≠ s) by congruence.
    apply (disciplined_intro s p sg1).
    + simpl. by rewrite lookup_insert_ne.
    + done.
    + destruct (AbortSignal.isCanceled sg1) eqn:Hcan.
      * right. split; [done|]. by exists b1.
      * left. by rewrite (Hb1 eq_refl) in Hc1.
    + intros s1 sg'. simpl.
      destruct (decide (fresh (dom (signals rt)) = s1)) as [<-|Hne1].
      * rewrite lookup_insert_eq. intros [= <-]. simpl. intros Heq.
        assert (Hfresh : promises rt !! fresh (dom (promises rt)) = None)
          by apply not_elem_of_dom, is_fresh.
        rewrite Heq in Hfresh.
        destruct (promises rt !! p); [done|]. simpl in Hc. done.
      * rewrite lookup_insert_ne by done. apply Hown.
    + done.
  - (* a signal is cancelled *)
    unfold signal_cancel.
    destruct (signals rt !! s') as [sg'|] eqn:Hs'; [|done].
    destruct (AbortSignal.isCanceled sg') eqn:Hcan'; [done|].
    destruct Hd as [_ Hown Hn].
    destruct (decide (s' = s)) as [->|Hne].
    + assert (sg' = sg) as -> by congruence. rewrite Hcan' in Hc.
      rewrite (Hb Hcan') in Hc.
      destruct (promises rt !! p) as [cell|] eqn:Hcell; [|done].
      simpl in Hc. injection Hc as Hst Hflag.
      destruct (promise_call_first p (CallReject cancel_marker) cell
                  (set_signals
                     (<[s := AbortSignal.mk true (AbortSignal.pr sg)]>
                        (signals rt)) rt) Hcell Hflag Hst)
        as (cell' & Hcell' & Hflag' & Hst').
      simpl in Hcell'. rewrite Hpr in Hcell' |- *.
      apply (disciplined_intro s p (AbortSignal.mk true p)).
      * rewrite (proj1 (quiet_promise_reject _ _ _)). simpl.
        by rewrite lookup_insert_eq.
      * done.
      * right. split; [done|]. exists (alreadyResolved cell').
        rewrite Hcell'. simpl. by rewrite Hst'.
      * intros s1 sg1. rewrite (proj1 (quiet_promise_reject _ _ _)). simpl.
        destruct (decide (s = s1)) as [<-|Hne1]; [done|].
        rewrite lookup_insert_ne by done. apply Hown.
      * by apply nowhere_promise_reject.
    + assert (Hnep : AbortSignal.pr sg' ≠ p).
      { intros Heq. by apply Hne, (Hown s' sg'). }
      apply (disciplined_intro s p sg).
      * rewrite (proj1 (quiet_promise_reject _ _ _)). simpl.
        by rewrite lookup_insert_ne.
      * done.
      * pose proof (core_promise_call p _ (CallReject cancel_marker)
                      (set_signals
                         (<[s' := AbortSignal.mk true (AbortSignal.pr sg')]>
                            (signals rt)) rt) Hnep) as Hcore.
        cbn [promise_call] in Hcore. rewrite Hcore.
        change (core p (set_signals ?ss rt)) with (core p rt).
        rewrite Hc. destruct (AbortSignal.isCanceled sg) eqn:Hcan.
        -- right. split; [done|]. by exists b.
        -- left. by rewrite Hb.
      * intros s1 sg1. rewrite (proj1 (quiet_promise_reject _ _ _)). simpl.
        destruct (decide (s' = s1)) as [<-|Hne1].
        -- rewrite lookup_insert_eq. by intros [= <-].
        -- rewrite lookup_insert_ne by done. apply Hown.
      * by apply nowhere_promise_reject.
  - (* a token is requested *)
    unfold getCancelToken, axios. cbn [CancelToken snd].
    destruct (signal_pr s' _) as [q|]; [|by destruct Hd].
    apply (disciplined_frame s p rt); [done| | |].
    + by rewrite (proj1 (quiet_promise_catch _ _ _)).
    + by rewrite core_promise_catch.
    + apply nowhere_promise_catch; [apply Hd | done].
  - (* the oldest job runs *)
    destruct (nowhere_pop _ h v js rt (disc_untargeted s p rt Hd) Hjobs)
      as [Hh Hn].
    apply (disciplined_frame s p rt); [done| | |].
    + by rewrite run_handler_signals.
    + by rewrite core_run_handler.
    + by apply nowhere_run_handler_target.
  - (* a deferred object is created *)
    rewrite defer_unfold. by apply disciplined_alloc.
  - (* somebody calls a resolving function of another promise *)
    apply (disciplined_frame s p rt); [done| | |].
    + by rewrite (proj1 (quiet_promise_call _ _ _)).
    + by rewrite core_promise_call.
    + apply nowhere_call_target; [by left | apply Hd].
Qed.

Lemma disciplined_rtc s p rt rt' :
  disciplined s p rt -> owned_reachable p rt rt' -> disciplined s p rt'.
Proof.
  intros Hd Hreach. induction Hreach as [|rt1 rt2 rt3 Hstep _ IH]; [done|].
  apply IH. by eapply disciplined_step.
Qed.

(** Under the discipline the signal is cancelled exactly when its promise
    has been rejected with the marker. *)
Lemma disciplined_cancelled s p rt :
  disciplined s p rt ->
  signal_canceled s rt = true <-> rejected_with_marker p rt.
Proof.
  intros [(sg & cell & Hs & Hpr & Hcell & Hst) _ _].
  unfold signal_canceled, rejected_with_marker, promise_state.
  rewrite Hs, Hcell. simpl. destruct (AbortSignal.isCanceled sg).
  - by rewrite Hst.
  - destruct Hst as [-> _]. by split.
Qed.

Lemma owned_is_step p rt rt' : owned_step p rt rt' -> rt_step rt rt'.
Proof. intros Hstep. destruct Hstep; by constructor. Qed.
End Ownership.

(** C9.  For a token requested with [getCancelToken] for an abort signal
    [s] whose promise is [p], in every state the runtime reaches
    afterwards, whoever settles [p] and however: with the marker, with
    another reason, with a value, or not at all.  The promise of the signal
    is still [p].  The token's [cancel] function has been invoked at most
    once, and not at all unless [p] has been rejected with the marker: a
    signal whose promise is pending, fulfilled or rejected with another
    reason has not cancelled the token.  If [p] has been rejected with the
    marker then [cancel] has been invoked once the job queue is empty, and
    in any case once the jobs that are queued have run; if not, it has not
    been invoked after they have run either.  And for a signal that is left
    to its [cancel()], as the data model says, the rejection with the marker
    is the cancellation of the signal: in every state of a run in which
    nobody else calls the resolving functions of [p], the token's [cancel]
    has been invoked, once the queued jobs have run, exactly when the signal
    is cancelled, and a signal that is not cancelled has not cancelled the
    token. *)
Theorem cancel_token_follows_signal
    (rt rt' : Runtime) (s : sloc) (sg : AbortSignal.t) :
  rt_reachable empty_runtime rt ->
  signals rt !! s = Some sg ->
  rt_reachable (getCancelToken axios s rt).2 rt' ->
  let c := (getCancelToken axios s rt).1 in
  let p := AbortSignal.pr sg in
  signal_pr s rt' = Some p
  /\ (cancel_calls c rt' <= 1)%nat
  /\ (~ rejected_with_marker p rt' -> cancel_calls c rt' = 0%nat)
  /\ (rejected_with_marker p rt' -> jobs rt' = [] ->
      cancel_calls c rt' = 1%nat)
  /\ rt_reachable rt' (run_jobs rt')
  /\ (rejected_with_marker p rt' -> cancel_calls c (run_jobs rt') = 1%nat)
  /\ (~ rejected_with_marker p rt' -> cancel_calls c (run_jobs rt') = 0%nat)
  /\ (disciplined s p rt ->
      owned_reachable p (getCancelToken axios s rt).2 rt' ->
      (signal_canceled s rt' = true <-> rejected_with_marker p rt')
      /\ (cancel_calls c (run_jobs rt') = 1%nat
          <-> signal_canceled s rt' = true)
      /\ (signal_canceled s rt' = false ->
          cancel_calls c rt' = 0%nat
          /\ cancel_calls c (run_jobs rt') = 0%nat)
      /\ (signal_canceled s rt' = true -> jobs rt' = [] ->
          cancel_calls c rt' = 1%nat)).
Proof.
  intros Hreach Hs Hlater c p. subst c p.
  pose proof (rinv_reachable rt Hreach) as Hrinv.
  pose proof (tinv_init s sg rt Hrinv Hs) as Hinit.
  pose proof (tinv_rtc _ _ _ _ Hinit Hlater) as Hinv.
  assert (Hpr : signal_pr s rt' = Some (AbortSignal.pr sg)).
  { apply (signal_pr_rtc _ _ _ _ Hlater).
    apply (signal_pr_step _ _ _ _ (rt_token rt s (mk_is_Some _ _ Hs))).
    unfold signal_pr. by rewrite Hs. }
  destruct (tinv_account _ _ _ Hinv) as (Hle & Hiff & Hnone & Hquiet).
  assert (Hyes : rejected_with_marker (AbortSignal.pr sg) rt' ->
                 cancel_calls (getCancelToken axios s rt).1 (run_jobs rt')
                 = 1%nat).
  { rewrite run_jobs_calls by apply (tinv_token _ _ _ Hinv).
    by intros ?%Hiff. }
  assert (Hno : ~ rejected_with_marker (AbortSignal.pr sg) rt' ->
                cancel_calls (getCancelToken axios s rt).1 (run_jobs rt')
                = 0%nat).
  { rewrite run_jobs_calls by apply (tinv_token _ _ _ Hinv). intros Hnot.
    destruct (decide (cancelling (getCancelToken axios s rt).1 (jobs rt')
                      + cancel_calls (getCancelToken axios s rt).1 rt'
                      = 1)%nat) as [Heq|Hne]; [by apply Hiff in Heq|lia]. }
  split; [done|]. split; [lia|]. split; [done|]. split; [done|].
  split; [apply run_jobs_reachable|]. split; [done|]. split; [done|].
  intros Hdisc Howned.
  assert (Hd : disciplined s (AbortSignal.pr sg) rt').
  { apply (disciplined_rtc _ _ _ _ (disciplined_step _ _ _ _ Hdisc
             (owned_token _ rt s (mk_is_Some _ _ Hs))) Howned). }
  pose proof (disciplined_cancelled _ _ _ Hd) as Hcan.
  split; [done|]. split; [|split].
  - split.
    + intros Hone. apply Hcan.
      destruct (signal_canceled s rt') eqn:Hsc; [by apply Hcan|].
      assert (Hnot : ~ rejected_with_marker (AbortSignal.pr sg) rt').
      { intros Hrej. apply Hcan in Hrej. done. }
      rewrite (Hno Hnot) in Hone. done.
    + intros Hsc. by apply Hyes, Hcan.
  - intros Hsc.
    assert (Hnot : ~ rejected_with_marker (AbortSignal.pr sg) rt').
    { intros Hrej. apply Hcan in Hrej. congruence. }
    split; [by apply Hnone | by apply Hno].
  - intros Hsc. by apply Hquiet, Hcan.
Qed.

Lemma cancel_token_follows_signal_witness :
  let rt := (new_signal empty_runtime).2 in
  let sg := AbortSignal.mk false 0%nat in
  let c := (getCancelToken axios 0%nat rt).1 in
  let p := AbortSignal.pr sg in
  let rt' := signal_cancel 0%nat (getCancelToken axios 0%nat rt).2 in
  signal_pr 0%nat rt' = Some p
  /\ (cancel_calls c rt' <= 1)%nat
  /\ (~ rejected_with_marker p rt' -> cancel_calls c rt' = 0%nat)
  /\ (rejected_with_marker p rt' -> jobs rt' = [] ->
      cancel_calls c rt' = 1%nat)
  /\ rt_reachable rt' (run_jobs rt')
  /\ (rejected_with_marker p rt' -> cancel_calls c (run_jobs rt') = 1%nat)
  /\ (~ rejected_with_marker p rt' -> cancel_calls c (run_jobs rt') = 0%nat)
  /\ (disciplined 0%nat p rt ->
      owned_reachable p (getCancelToken axios 0%nat rt).2 rt' ->
      (signal_canceled 0%nat rt' = true <-> rejected_with_marker p rt')
      /\ (cancel_calls c (run_jobs rt') = 1%nat
          <-> signal_canceled 0%nat rt' = true)
      /\ (signal_canceled 0%nat rt' = false ->
          cancel_calls c rt' = 0%nat
          /\ cancel_calls c (run_jobs rt') = 0%nat)
      /\ (signal_canceled 0%nat rt' = true -> jobs rt' = [] ->
          cancel_calls c rt' = 1%nat)).
Proof.
  intros rt sg c p rt'.
  apply (cancel_token_follows_signal rt rt' 0%nat sg).
  - eapply rtc_l; [apply rt_new_signal | apply rtc_refl].
  - reflexivity.
  - eapply rtc_l; [apply (rt_cancel _ 0%nat) | apply rtc_refl].
Defined.

(** A signal can be as the data model says, and a run can leave its
    promise to it: the signal created first, the request of a token for it,
    and its cancellation. *)
Example signal_left_to_its_cancel :
  let rt := (new_signal empty_runtime).2 in
  let rt' := signal_cancel 0%nat (getCancelToken axios 0%nat rt).2 in
  disciplined 0%nat 0%nat rt
  /\ owned_reachable 0%nat (getCancelToken axios 0%nat rt).2 rt'
  /\ signal_canceled 0%nat rt' = true
  /\ cancel_calls 0%nat rt' = 0%nat
  /\ cancel_calls 0%nat (run_jobs rt') = 1%nat.
Proof.
  intros rt rt'. split; [|split].
  - apply (disciplined_new_signal empty_runtime), rinv_empty.
  - eapply rtc_l; [apply (owned_cancel _ _ 0%nat) | apply rtc_refl].
  - by vm_compute.
Qed.

(** The reason test at work.  A token is requested for a new signal; the
    signal's promise is then rejected with the reason ["other"].  After the
    jobs have run [cancel] has not been invoked, and it is not invoked
    either when the signal is cancelled afterwards: its promise is settled
    already.  On a second signal that is cancelled, [cancel] of its token
    has been invoked once the jobs have run. *)
Example cancel_only_for_the_marker :
  let rt := (getCancelToken axios 0%nat (new_signal empty_runtime).2).2 in
  let other := run_jobs (promise_call 0%nat (CallReject (VString "other")) rt) in
  let late := run_jobs (signal_cancel 0%nat other) in
  let rt2 := (getCancelToken axios 1%nat (new_signal late).2).2 in
  let done := run_jobs (signal_cancel 1%nat rt2) in
  promise_state 0%nat other = Some (Rejected (VString "other"))
  /\ cancel_calls 0%nat other = 0%nat
  /\ signal_canceled 0%nat late = true
  /\ cancel_calls 0%nat late = 0%nat
  /\ promise_state 1%nat done = Some (Rejected cancel_marker)
  /\ cancel_calls 1%nat done = 1%nat
  /\ cancel_calls 0%nat done = 0%nat.
Proof. vm_compute. by repeat split. Qed.

(* ===================================================================== *)
(** * More on the policy helpers                                         *)
(* ===================================================================== *)

Section HelperFacts.
Implicit Types (w : World) (l : loc) (k : BooleanKeys).

Lemma dropEnqueued_nothing_enqueued w :
  _enqueuedInstances w = [] -> dropEnqueued w = w.
Proof. intros Hnone. unfold dropEnqueued. by rewrite Hnone. Qed.

Lemma read_field_dropEnqueued k w l :
  read_field k (objs (dropEnqueued w)) l
  = if bool_decide (l ∈ _enqueuedInstances w)
    then match k with
         | KisEnqueued => false
         | KisDropped => true
         | _ => read_field k (objs w) l
         end
    else read_field k (objs w) l.
Proof.
  unfold read_field. rewrite objs_dropEnqueued.
  case_bool_decide as Hin; [|done].
  apply view_lookup in Hin as (_ & i & Hi & _). rewrite Hi. simpl.
  by destruct k.
Qed.

(** The active instances after the oldest one has been cancelled: in an
    array without repeated references, all but the first. *)
Lemma active_after_cancel w l rest :
  NoDup (_instances (task w)) ->
  _activeInstances w = l :: rest ->
  _activeInstances (assign l cancel w) = rest.
Proof.
  intros Hnd Hact. rewrite activeInstances_unfold in Hact.
  rewrite activeInstances_unfold, task_assign.
  assert (Hhead : head (List.filter
                          (fun l0 => read_field KisRunning (objs w) l0
                                     || read_field KisEnqueued (objs w) l0)
                          (_instances (task w))) = Some l)
    by (by rewrite Hact).
  destruct (head_filter_oldest _ _ _ Hhead)
    as (older & newer & Hsplit & Holder & Hl).
  rewrite Hsplit in Hnd, Hact |- *.
  apply NoDup_app in Hnd as (_ & Hold & Hnew).
  apply NoDup_cons in Hnew as [Hnew _].
  assert (Hsame : forall ls, l ∉ ls ->
            List.filter
              (fun l0 => read_field KisRunning (objs (assign l cancel w)) l0
                         || read_field KisEnqueued (objs (assign l cancel w)) l0)
              ls
            = List.filter
                (fun l0 => read_field KisRunning (objs w) l0
                           || read_field KisEnqueued (objs w) l0) ls).
  { intros ls Hls. apply filter_ext_elem_of. intros l' Hl'.
    rewrite !read_field_assign_ne; [done|by intros ->..]. }
  assert (Hnone : List.filter
                    (fun l0 => read_field KisRunning (objs w) l0
                               || read_field KisEnqueued (objs w) l0) older
                  = []).
  { apply filter_nil_iff. intros x Hx.
    by apply (proj1 (Forall_forall _ _) Holder). }
  rewrite List.filter_app in Hact |- *. cbn [List.filter] in Hact |- *.
  rewrite Hl, Hnone in Hact. simpl in Hact. injection Hact as Hrest.
  rewrite !Hsame by (done || (intros ?; by eapply Hold, list_elem_of_here)).
  rewrite Hnone, !read_field_assign_eq. simpl.
  replace (match objs w !! l with
           | Some i => isRunning (cancel i)
           | None => false
           end) with false.
  2:{ destruct (objs w !! l) as [i|]; [|done].
      destruct i as [[] [] ? ? ? ? ? ? ?]; done. }
  replace (match objs w !! l with
           | Some i => isEnqueued (cancel i)
           | None => false
           end) with false.
  2:{ destruct (objs w !! l) as [i|]; [|done].
      destruct i as [[] [] ? ? ? ? ? ? ?]; done. }
  done.
Qed.

Lemma active_after_cancelFirstRunning w :
  NoDup (_instances (task w)) ->
  _activeInstances (cancelFirstRunning w) = tail (_activeInstances w).
Proof.
  intros Hnd. rewrite cancelFirstRunning_unfold.
  destruct (_activeInstances w) as [|l rest] eqn:Hact; simpl; [done|].
  by apply active_after_cancel.
Qed.

Lemma active_after_iterated_cancel (n : nat) w :
  NoDup (_instances (task w)) ->
  _activeInstances (Nat.iter n cancelFirstRunning w)
  = drop n (_activeInstances w)
  /\ task (Nat.iter n cancelFirstRunning w) = task w.
Proof.
  intros Hnd. induction n as [|n [IHact IHtask]]; [by rewrite drop_0|].
  rewrite Nat.iter_succ.
  rewrite active_after_cancelFirstRunning, task_cancelFirstRunning
    by (by rewrite IHtask).
  split; [|done]. rewrite IHact.
  replace (S n) with (n + 1)%nat by lia. rewrite <- drop_drop.
  by destruct (drop n (_activeInstances w)).
Qed.
End HelperFacts.

(** X1.  [dropEnqueued] is idempotent: a second call right after the first
    finds nothing enqueued and changes nothing. *)
Theorem dropEnqueued_twice (w : World) :
  dropEnqueued (dropEnqueued w) = dropEnqueued w.
Proof. apply dropEnqueued_nothing_enqueued, enqueued_dropEnqueued. Qed.

(** X2.  What [dropEnqueued] does to the views of the task: the enqueued
    view is empty afterwards; the dropped view gains exactly the instances
    that were enqueued; the running, successful, error and canceled views
    are as before, and so is the answer of [reachedMaxConcurrency]:
    dropping the backlog frees no running slot. *)
Theorem dropEnqueued_views (w : World) :
  _enqueuedInstances (dropEnqueued w) = []
  /\ (forall l,
        l ∈ filteredInstances task (Some KisDropped) (dropEnqueued w)
        <-> l ∈ filteredInstances task (Some KisDropped) w
            \/ l ∈ _enqueuedInstances w)
  /\ _runningInstances (dropEnqueued w) = _runningInstances w
  /\ filteredInstances task (Some KisSuccessful) (dropEnqueued w)
     = filteredInstances task (Some KisSuccessful) w
  /\ filteredInstances task (Some KisError) (dropEnqueued w)
     = filteredInstances task (Some KisError) w
  /\ filteredInstances task (Some KisCanceled) (dropEnqueued w)
     = filteredInstances task (Some KisCanceled) w
  /\ reachedMaxConcurrency (dropEnqueued w) = reachedMaxConcurrency w.
Proof.
  assert (Hkeep : forall k, k ≠ KisEnqueued -> k ≠ KisDropped ->
            filteredInstances task (Some k) (dropEnqueued w)
            = filteredInstances task (Some k) w).
  { intros k Hk1 Hk2. rewrite !filteredInstances_unfold, task_dropEnqueued.
    apply filter_ext_elem_of. intros l _. rewrite read_field_dropEnqueued.
    case_bool_decide; by destruct k. }
  split; [apply enqueued_dropEnqueued|].
  split.
  { intros l. unfold _enqueuedInstances.
    rewrite !filteredInstances_unfold, task_dropEnqueued, !elem_of_filter.
    rewrite read_field_dropEnqueued. case_bool_decide as Hin.
    - apply view_lookup in Hin as (Hl & i & Hi & Henq).
      unfold read_field at 2. rewrite Hi. cbn [get_field] in *. tauto.
    - split; [tauto|]. intros [?|[Hl Henq]]; [done|].
      exfalso. apply Hin. unfold _enqueuedInstances.
      rewrite filteredInstances_unfold. by apply elem_of_filter. }
  repeat split; try (by apply Hkeep).
  unfold reachedMaxConcurrency, _runningInstances.
  by rewrite task_dropEnqueued, (Hkeep KisRunning).
Qed.

(** X3.  On a task whose instance array holds no reference twice, each
    call of [cancelFirstRunning] takes the oldest instance out of the active
    sequence and leaves the others in place: after [n] calls the active
    sequence has lost its first [n] instances, and after as many calls as
    there were active instances none is left. *)
Theorem cancelFirstRunning_repeated (n : nat) (w : World) :
  NoDup (_instances (task w)) ->
  _activeInstances (cancelFirstRunning w) = tail (_activeInstances w)
  /\ _activeInstances (Nat.iter n cancelFirstRunning w)
     = drop n (_activeInstances w)
  /\ _activeInstances
       (Nat.iter (length (_activeInstances w)) cancelFirstRunning w) = [].
Proof.
  intros Hnd. split; [by apply active_after_cancelFirstRunning|].
  split; [by apply active_after_iterated_cancel|].
  rewrite (proj1 (active_after_iterated_cancel _ w Hnd)).
  by apply drop_all.
Qed.

Lemma cancelFirstRunning_repeated_witness :
  let w := perform 2%nat (perform 1%nat (perform 0%nat
             (new_task (Int 2) false true false false))) in
  _activeInstances (cancelFirstRunning w) = tail (_activeInstances w)
  /\ _activeInstances (Nat.iter 2 cancelFirstRunning w)
     = drop 2 (_activeInstances w)
  /\ _activeInstances
       (Nat.iter (length (_activeInstances w)) cancelFirstRunning w) = [].
Proof.
  intros w. apply (cancelFirstRunning_repeated 2 w).
  apply (bool_decide_unpack (NoDup (_instances (task w)))).
  vm_compute. exact I.
Defined.

(** X4.  [cancelFirstRunning] takes the first element of the active
    sequence, not of the running one: when the oldest active instance is
    enqueued and not running, it is that instance that is cancelled, and the
    running instances and the answer of [reachedMaxConcurrency] are as
    before. *)
Theorem cancelFirstRunning_enqueued_first (w : World) (l : loc) :
  js_index (_activeInstances w) 0 = Some l ->
  read_field KisRunning (objs w) l = false ->
  read_field KisCanceled (objs (cancelFirstRunning w)) l = true
  /\ read_field KisEnqueued (objs (cancelFirstRunning w)) l = false
  /\ _runningInstances (cancelFirstRunning w) = _runningInstances w
  /\ reachedMaxConcurrency (cancelFirstRunning w) = reachedMaxConcurrency w.
Proof.
  intros Hhead Hrun. rewrite js_index_0 in Hhead.
  rewrite cancelFirstRunning_unfold, Hhead.
  apply head_active_elem in Hhead as [Hin Hact].
  rewrite Hrun in Hact. simpl in Hact.
  apply read_field_lookup in Hact as (i & Hi & Henq). cbn [get_field] in Henq.
  unfold read_field in Hrun. rewrite Hi in Hrun. cbn [get_field] in Hrun.
  assert (Hsame : _runningInstances (assign l cancel w) = _runningInstances w).
  { apply view_assign_same. intros i' Hi'. simplify_eq. cbn [get_field].
    destruct i as [[] [] ? ? ? ? ? ? ?]; simpl in *; done. }
  rewrite !read_field_assign_eq, Hi.
  repeat split.
  - destruct i as [[] [] ? ? ? ? ? ? ?]; simpl in *; done.
  - destruct i as [[] [] ? ? ? ? ? ? ?]; simpl in *; done.
  - done.
  - unfold reachedMaxConcurrency. by rewrite Hsame.
Qed.

Lemma cancelFirstRunning_enqueued_first_witness :
  let w' := perform 2%nat
              (assign 0%nat (mark_successful VUndefined)
                 (perform 1%nat (perform 0%nat
                    (new_task (Int 1) false true false false)))) in
  read_field KisCanceled (objs (cancelFirstRunning w')) 1%nat = true
  /\ read_field KisEnqueued (objs (cancelFirstRunning w')) 1%nat = false
  /\ _runningInstances (cancelFirstRunning w') = _runningInstances w'
  /\ reachedMaxConcurrency (cancelFirstRunning w') = reachedMaxConcurrency w'.
Proof.
  intros w'. apply (cancelFirstRunning_enqueued_first w' 1%nat); reflexivity.
Defined.

(** X5.  [reachedMaxConcurrency] looks at nothing but the number of running
    instances and the ceiling, and more running instances never take the
    answer back: between two states of a task with the same ceiling, if the
    ceiling is reached in the one and the other has at least as many running
    instances, it is reached in the other. *)
Theorem reachedMaxConcurrency_monotone (w w' : World) :
  _maxConcurrency (task w') = _maxConcurrency (task w) ->
  (length (_runningInstances w) <= length (_runningInstances w'))%nat ->
  reachedMaxConcurrency w = true ->
  reachedMaxConcurrency w' = true.
Proof.
  unfold reachedMaxConcurrency, js_geq, js_length. intros -> Hle.
  destruct (_maxConcurrency (task w)) as [z|]; [|done].
  rewrite !Z.leb_le. lia.
Qed.

Lemma reachedMaxConcurrency_monotone_witness :
  let w := perform 0%nat (new_task (Int 1) false true false false) in
  let w' := push_instance 1%nat w in
  reachedMaxConcurrency w' = true.
Proof.
  intros w w'. apply (reachedMaxConcurrency_monotone w w').
  - reflexivity.
  - vm_compute. lia.
  - reflexivity.
Defined.

(** X6.  A ceiling of zero or less is reached in every state, also by a
    task that has no instance at all. *)
Theorem reachedMaxConcurrency_no_room (w : World) (z : Z) :
  _maxConcurrency (task w) = Int z ->
  z <= 0 ->
  reachedMaxConcurrency w = true.
Proof.
  unfold reachedMaxConcurrency, js_geq, js_length. intros -> Hz.
  apply Z.leb_le. lia.
Qed.

Lemma reachedMaxConcurrency_no_room_witness :
  reachedMaxConcurrency (new_task (Int 0) true false false false) = true.
Proof.
  apply (reachedMaxConcurrency_no_room _ 0); [reflexivity | lia].
Defined.

(* ===================================================================== *)
(** * More on the derived views                                          *)
(* ===================================================================== *)

Section ViewFacts.
Context {T : Type}.
Implicit Types (cb : World -> list T) (read : World -> T -> bool)
  (value : option bool) (w : World).

Lemma filter_callback_boolean (curr : bool) value :
  filter_callback curr value = curr.
Proof. by destruct value as [[]|], curr. Qed.

Lemma filter_twice (p q : T -> bool) (ls : list T) :
  List.filter p (List.filter q ls) = List.filter (fun x => q x && p x) ls.
Proof.
  induction ls as [|x ls IH]; simpl; [done|].
  destruct (q x) eqn:Hq; simpl; [|done].
  destruct (p x); by rewrite IH.
Qed.

Lemma last_filter_newest (f : T -> bool) (ls : list T) (x : T) :
  last (List.filter f ls) = Some x ->
  exists older newer,
    ls = older ++ x :: newer
    /\ Forall (fun y => f y = false) newer
    /\ f x = true.
Proof.
  induction ls as [|y ls IH]; simpl; [done|].
  destruct (List.filter f ls) as [|z rest] eqn:Hrest.
  - destruct (f y) eqn:Hy; simpl; [|done].
    intros [= ->]. exists [], ls. repeat split; [|done].
    apply Forall_forall. intros z Hz. by apply (filter_nil_iff f ls).
  - intros Hlast.
    assert (Hlast' : last (z :: rest) = Some x).
    { destruct (f y); [by rewrite last_cons_cons in Hlast | done]. }
    destruct (IH Hlast') as (older & newer & -> & Hnewer & Hx).
    by exists (y :: older), newer.
Qed.

Lemma head_filter_split (f : T -> bool) (older newer : list T) (x : T) :
  Forall (fun y => f y = false) older -> f x = true ->
  head (List.filter f (older ++ x :: newer)) = Some x.
Proof.
  intros Holder Hx. rewrite List.filter_app. simpl. rewrite Hx.
  replace (List.filter f older) with (@nil T); [done|].
  symmetry. apply filter_nil_iff. intros y Hy.
  by apply (proj1 (Forall_forall _ _) Holder).
Qed.

Lemma last_filter_split (f : T -> bool) (older newer : list T) (x : T) :
  Forall (fun y => f y = false) newer -> f x = true ->
  last (List.filter f (older ++ x :: newer)) = Some x.
Proof.
  intros Hnewer Hx. rewrite List.filter_app. simpl. rewrite Hx.
  replace (List.filter f newer) with (@nil T).
  - by rewrite last_app.
  - symmetry. apply filter_nil_iff. intros y Hy.
    by apply (proj1 (Forall_forall _ _) Hnewer).
Qed.
End ViewFacts.

(** X7.  On boolean fields the optional argument [value] of
    [computedFilterBy] makes no difference: with [true], with [false] or
    with no value the result holds the items whose field is true.  Passing
    [false] does not select the items whose field is false. *)
Theorem computedFilterBy_value_ignored {T : Type}
    (cb : World -> list T) (read : World -> T -> bool)
    (value : option bool) (w : World) :
  computedFilterBy cb read value w = computedFilterBy cb read None w
  /\ (forall item,
        item ∈ computedFilterBy cb read (Some false) w
        <-> item ∈ cb w /\ read w item = true).
Proof.
  unfold computedFilterBy. split.
  - apply filter_ext_elem_of. intros item _. apply filter_callback_boolean.
  - intros item. by rewrite elem_of_filter.
Qed.

(** X8.  Filters built with [computedFilterBy] compose: filtering a
    filtered sequence again on the same field changes nothing, filtering on
    two fields gives the same sequence in either order, and the sequence
    holds the items for which both fields are true. *)
Theorem computedFilterBy_compose {T : Type}
    (cb : World -> list T) (read1 read2 : World -> T -> bool)
    (v1 v2 : option bool) (w : World) :
  computedFilterBy (computedFilterBy cb read1 v1) read1 v1 w
  = computedFilterBy cb read1 v1 w
  /\ computedFilterBy (computedFilterBy cb read1 v1) read2 v2 w
     = computedFilterBy (computedFilterBy cb read2 v2) read1 v1 w
  /\ (forall item,
        item ∈ computedFilterBy (computedFilterBy cb read1 v1) read2 v2 w
        <-> item ∈ cb w /\ read1 w item = true /\ read2 w item = true).
Proof.
  unfold computedFilterBy. cbv zeta. rewrite !filter_twice.
  split; [|split].
  - apply filter_ext_elem_of. intros item _. by rewrite andb_diag.
  - apply filter_ext_elem_of. intros item _. apply andb_comm.
  - intros item.
    rewrite elem_of_filter, !filter_callback_boolean, andb_true_iff. tauto.
Qed.

(** X9.  The scalar views over a filtered view: [computedFirstOf] reads as
    [l] exactly when [l] is the oldest instance of the task whose field is
    true, every instance before it in [_instances] having the field false;
    [computedLastOf] reads as [l] exactly when [l] is the newest such
    instance, every instance after it having the field false. *)
Theorem first_and_last_of_view
    (cb : World -> Task) (key : BooleanKeys) (w : World) (l : loc) :
  (computedFirstOf (filteredInstances cb (Some key)) w = Some l
   <-> exists older newer,
         _instances (cb w) = older ++ l :: newer
         /\ Forall (fun l' => read_field key (objs w) l' = false) older
         /\ read_field key (objs w) l = true)
  /\ (computedLastOf (filteredInstances cb (Some key)) w = Some l
      <-> exists older newer,
            _instances (cb w) = older ++ l :: newer
            /\ Forall (fun l' => read_field key (objs w) l' = false) newer
            /\ read_field key (objs w) l = true).
Proof.
  unfold computedFirstOf, computedLastOf. cbv zeta.
  rewrite js_index_0, js_index_last, filteredInstances_unfold.
  split; split.
  - apply head_filter_oldest.
  - intros (older & newer & -> & Holder & Hl). by apply head_filter_split.
  - apply last_filter_newest.
  - intros (older & newer & -> & Hnewer & Hl). by apply last_filter_split.
Qed.

Lemma filter_full {T : Type} (f : T -> bool) (ls : list T) :
  length (List.filter f ls) = length ls -> List.filter f ls = ls.
Proof.
  induction ls as [|x ls IH]; simpl; [done|].
  pose proof (filter_length_le f ls) as Hle.
  destruct (f x); simpl; intros Hlen; [|lia].
  f_equal. apply IH. lia.
Qed.

(** X10.  The length of a filtered view: it never exceeds the number of
    instances of the task; it is zero exactly when no instance has the field
    true, which is exactly when [computedFirstOf] and [computedLastOf] read
    as [undefined]; and it equals the number of instances exactly when the
    view is the whole instance sequence. *)
Theorem length_of_view
    (cb : World -> Task) (key : BooleanKeys) (w : World) :
  let view := filteredInstances cb (Some key) in
  computedLength view w <= js_length (_instances (cb w))
  /\ (computedLength view w = 0
      <-> forall l, l ∈ _instances (cb w) -> read_field key (objs w) l = false)
  /\ (computedLength view w = 0 <-> computedFirstOf view w = None)
  /\ (computedLength view w = 0 <-> computedLastOf view w = None)
  /\ (computedLength view w = js_length (_instances (cb w))
      <-> view w = _instances (cb w)).
Proof.
  intros view. subst view.
  unfold computedLength, computedFirstOf, computedLastOf. cbv zeta.
  rewrite js_index_0, js_index_last, filteredInstances_unfold.
  rewrite head_None, last_None. unfold js_length.
  assert (Hzero : forall A (ls : list A), Z.of_nat (length ls) = 0 <-> ls = []).
  { intros A ls. destruct ls; simpl; [done|]. split; [lia | done]. }
  pose proof (filter_length_le (read_field key (objs w)) (_instances (cb w)))
    as Hle.
  split; [lia|]. rewrite !Hzero. split; [apply filter_nil_iff|].
  split; [done|]. split; [done|].
  split; [|by intros ->].
  intros Hlen. apply Nat2Z.inj in Hlen.
  by apply filter_full.
Qed.

(** X11.  The views of a task depend on the objects of its own instances
    only: rewriting an object that [_instances] does not point to, in any
    way, changes none of the six views, nor the active sequence, nor the
    answer of [reachedMaxConcurrency]. *)
Theorem views_ignore_foreign_objects
    (w : World) (l : loc) (f : TaskInstance -> TaskInstance)
    (key : BooleanKeys) :
  l ∉ _instances (task w) ->
  filteredInstances task (Some key) (assign l f w)
  = filteredInstances task (Some key) w
  /\ _activeInstances (assign l f w) = _activeInstances w
  /\ reachedMaxConcurrency (assign l f w) = reachedMaxConcurrency w.
Proof.
  intros Hnotin. split; [by apply view_assign_notin|]. split.
  - rewrite !activeInstances_unfold, task_assign.
    apply filter_ext_elem_of. intros l' Hl'.
    rewrite !read_field_assign_ne; [done|by intros ->..].
  - unfold reachedMaxConcurrency, _runningInstances.
    by rewrite view_assign_notin.
Qed.

Lemma views_ignore_foreign_objects_witness :
  let w := mkWorld (mkTask [0%nat] (Int 1) false true false false)
             (<[1%nat := mark_enqueued new_instance]>
                (<[0%nat := mark_running new_instance]> ∅)) in
  filteredInstances task (Some KisRunning) (assign 1%nat mark_running w)
  = filteredInstances task (Some KisRunning) w
  /\ _activeInstances (assign 1%nat mark_running w) = _activeInstances w
  /\ reachedMaxConcurrency (assign 1%nat mark_running w)
     = reachedMaxConcurrency w.
Proof.
  intros w. apply (views_ignore_foreign_objects w 1%nat mark_running KisRunning).
  apply (bool_decide_unpack (1%nat ∉ _instances (task w))).
  vm_compute. exact I.
Defined.

(* ===================================================================== *)
(** * More on deferred promises and cancel tokens                        *)
(* ===================================================================== *)

Section DeferredFacts.
Implicit Types (rt : Runtime) (p q : ploc) (s : PromiseState) (c : Call).






End DeferredFacts.




Section TokenFacts.
Implicit Types (rt : Runtime) (p : ploc) (h : Handler).

(** Registering a handler changes the state of no promise, no signal and
    no token, and can only add a job at the end of the queue. *)
Lemma promise_catch_frame p h rt :
  (forall q, promise_state q (promise_catch p h rt) = promise_state q rt)
  /\ signals (promise_catch p h rt) = signals rt
  /\ tokens (promise_catch p h rt) = tokens rt
  /\ exists extra, jobs (promise_catch p h rt) = jobs rt ++ extra.
Proof.
  unfold promise_catch.
  destruct (promises rt !! p) as [cell|] eqn:Hcell;
    [|repeat split; exists []; by rewrite app_nil_r].
  destruct (pstate cell) eqn:Hst; simpl.
  - repeat split; [|exists []; by rewrite app_nil_r].
    intros q. unfold promise_state. simpl.
    destruct (decide (p = q)) as [<-|Hne].
    + by rewrite lookup_insert_eq, Hcell, <- Hst.
    + by rewrite lookup_insert_ne.
  - repeat split. exists []. by rewrite app_nil_r.
  - repeat split. by eexists.
Qed.
End TokenFacts.

(** X14.  [getCancelToken] only subscribes: the token it returns is a new
    one whose [cancel] function has not been invoked; no promise changes
    state, the signals and the other tokens are as before, and the job queue
    keeps its jobs in place, with at most new ones after them. *)
Theorem getCancelToken_only_subscribes (s : sloc) (rt : Runtime) :
  let c := (getCancelToken axios s rt).1 in
  let rt' := (getCancelToken axios s rt).2 in
  tokens rt !! c = None
  /\ tokens rt' !! c = Some 0%nat
  /\ (forall c', c' ≠ c -> tokens rt' !! c' = tokens rt !! c')
  /\ (forall p, promise_state p rt' = promise_state p rt)
  /\ signals rt' = signals rt
  /\ exists extra, jobs rt' = jobs rt ++ extra.
Proof.
  intros c rt'. subst c rt'. unfold getCancelToken, axios. simpl.
  set (c := fresh (dom (tokens rt))).
  set (rt0 := set_tokens (<[c := 0%nat]> (tokens rt)) rt).
  assert (Hc : tokens rt !! c = None) by apply not_elem_of_dom, is_fresh.
  split; [done|].
  assert (Hframe :
    forall rt1,
      (forall q, promise_state q rt1 = promise_state q rt0) ->
      signals rt1 = signals rt0 -> tokens rt1 = tokens rt0 ->
      (exists extra, jobs rt1 = jobs rt0 ++ extra) ->
      tokens rt1 !! c = Some 0%nat
      /\ (forall c', c' ≠ c -> tokens rt1 !! c' = tokens rt !! c')
      /\ (forall p, promise_state p rt1 = promise_state p rt)
      /\ signals rt1 = signals rt
      /\ exists extra, jobs rt1 = jobs rt ++ extra).
  { intros rt1 Hp Hs Ht Hj. rewrite Ht, Hs. subst rt0. simpl.
    rewrite lookup_insert_eq. repeat split; try done.
    intros c' Hne. by rewrite lookup_insert_ne. }
  destruct (signal_pr s rt0) as [p|].
  - destruct (promise_catch_frame p (CancelIfMarker c) rt0)
      as (Hp & Hs & Ht & Hj).
    by apply Hframe.
  - apply Hframe; try done. exists []. by rewrite app_nil_r.
Qed.

(* ===================================================================== *)
(** * What [printTask] prints                                            *)
(* ===================================================================== *)




